(** * Gamemaster client: audio engine and voice lookup

    A shallow embedding of the module-level state and handlers of the
    gamemaster client (socket connection, audio engine, exported API) and
    of the ElevenLabs voice lookup, followed by the properties proved about
    them.

    Conventions of the embedding.
    - Every module-level [let]/[const] variable is a field of [State] under
      its source name.  The browser and the socket are part of the state
      too: the audio elements created with [new Audio] live in a store
      indexed by allocation number (an element is referred to by that
      number, so two references to one element alias), [socket.emit] appends
      to [emitted], and a callback handed to the API is identified by a
      number and its invocations are recorded in [called].
    - JavaScript numbers that the module only stores and copies (volumes,
      positions, durations) are rationals; a duration that is not known yet
      (NaN) is [None].  Preset indices are integers.
    - An audio element is the record of the properties the module reads and
      writes, with plain property semantics; [play] and [pause] flip
      [paused].  What the browser does with the element (decoding,
      advancing the position, firing [ended]) arrives as [BrowserEvent]s.
    - [audioLog] and [console.*] only print and are left out. *)

From Stdlib Require Import QArith.
From stdpp Require Import gmap strings list fin_maps pretty.

(** ** Constants *)

Definition BACKOFFICE_URL : string := "http://192.168.10.1:3000".

(** ** Game types *)

(** A value of TypeScript type [unknown], kept in serialised form. *)
Definition Unknown : Type := string.

Record GameAction := mkGameAction {
  action_id : string;
  action_label : string;
  action_params : option (list string)
}.

Record RegisterData := mkRegisterData {
  gameId : string;
  game_name : string;
  availableActions : list GameAction;
  role : option string
}.

Record Command := mkCommand {
  action : string;
  payload : gmap string Unknown
}.

(** ** Audio types *)

Record AudioConfig := mkAudioConfig {
  enabled : bool;
  autoUnlock : bool;
  debug : bool
}.

(** [Partial<AudioConfig>]: every field may be absent. *)
Record PartialAudioConfig := mkPartial {
  partial_enabled : option bool;
  partial_autoUnlock : option bool;
  partial_debug : option bool
}.

(** The closure stored in [onended].  The preset handler captures
    [presetIdx] and the element [audio]; the speech handler captures the
    object URL. *)
Inductive EndedHandler :=
  | PresetEnded (presetIdx : Z) (audio : nat)
  | TtsEnded (url : string).

(** [HTMLAudioElement]. *)
Record Audio := mkAudio {
  src : string;
  loop : bool;
  volume : Q;
  paused : bool;
  currentTime : Q;
  duration : option Q;
  ended : bool;
  onended : option EndedHandler
}.

(** [new Audio(url)]. *)
Definition new_Audio (url : string) : Audio :=
  mkAudio url false 1%Q true 0%Q None false None.

Definition with_src (v : string) (a : Audio) : Audio :=
  mkAudio v (loop a) (volume a) (paused a) (currentTime a) (duration a)
    (ended a) (onended a).
Definition with_loop (v : bool) (a : Audio) : Audio :=
  mkAudio (src a) v (volume a) (paused a) (currentTime a) (duration a)
    (ended a) (onended a).
Definition with_volume (v : Q) (a : Audio) : Audio :=
  mkAudio (src a) (loop a) v (paused a) (currentTime a) (duration a)
    (ended a) (onended a).
Definition with_paused (v : bool) (a : Audio) : Audio :=
  mkAudio (src a) (loop a) (volume a) v (currentTime a) (duration a)
    (ended a) (onended a).
Definition with_currentTime (v : Q) (a : Audio) : Audio :=
  mkAudio (src a) (loop a) (volume a) (paused a) v (duration a)
    (ended a) (onended a).
Definition with_duration (v : option Q) (a : Audio) : Audio :=
  mkAudio (src a) (loop a) (volume a) (paused a) (currentTime a) v
    (ended a) (onended a).
Definition with_ended (v : bool) (a : Audio) : Audio :=
  mkAudio (src a) (loop a) (volume a) (paused a) (currentTime a)
    (duration a) v (onended a).
Definition with_onended (v : option EndedHandler) (a : Audio) : Audio :=
  mkAudio (src a) (loop a) (volume a) (paused a) (currentTime a)
    (duration a) (ended a) v.

(** ** Socket and browser vocabulary *)

(** Events emitted to the backoffice with [socket.emit]. *)
Inductive OutEvent :=
  | out_register (data : RegisterData)
  | out_state_update (state : gmap string Unknown)
  | out_event (name : string) (data : gmap string Unknown)
  | out_game_message (message : Unknown)
  | out_register_audio_player
  | out_preset_progress (presetIdx : Z) (currentTime duration : option Q)
      (ended : option bool).

(** Events delivered by the socket to the listeners of their name. *)
Inductive SocketEvent :=
  | audio_play_ambient (soundId file : string) (volume : option Q)
  | audio_stop_ambient (soundId : string)
  | audio_volume_ambient (soundId : string) (volume : Q)
  | audio_play_preset (presetIdx : Z) (file : string)
  | audio_pause_preset (presetIdx : Z)
  | audio_seek_preset (presetIdx : Z) (time : Q)
  | audio_stop_preset (presetIdx : Z)
  | audio_play_tts (audioBase64 : string) (mimeType : option string)
  | audio_volume_ia (volume : Q)
  | audio_master_volume (volume : Q)
  | audio_stop_all
  | connect
  | disconnect (reason : string)
  | command (data : Command)
  | game_message (message : Unknown).

Definition event_name (e : SocketEvent) : string :=
  match e with
  | audio_play_ambient _ _ _ => "audio:play-ambient"
  | audio_stop_ambient _ => "audio:stop-ambient"
  | audio_volume_ambient _ _ => "audio:volume-ambient"
  | audio_play_preset _ _ => "audio:play-preset"
  | audio_pause_preset _ => "audio:pause-preset"
  | audio_seek_preset _ _ => "audio:seek-preset"
  | audio_stop_preset _ => "audio:stop-preset"
  | audio_play_tts _ _ => "audio:play-tts"
  | audio_volume_ia _ => "audio:volume-ia"
  | audio_master_volume _ => "audio:master-volume"
  | audio_stop_all => "audio:stop-all"
  | connect => "connect"
  | disconnect _ => "disconnect"
  | command _ => "command"
  | game_message _ => "game-message"
  end.

(** A function registered on the socket.  The arrows written in the module
    are named after where they are created; a function supplied by the
    caller is identified by a number (its identity as an object). *)
Inductive Listener :=
  | AudioListener
  | ConnectListener
  | DisconnectListener
  | CommandListener (callback : nat)
  | Callback (callback : nat).

#[global] Instance Listener_eq_dec : EqDecision Listener.
Proof. solve_decision. Defined.

(** One invocation of a caller-supplied function, with what it received. *)
Definition Call : Type := nat * SocketEvent.

(** [unlockEvents]. *)
Inductive UnlockEvent := click | touchstart | keydown.

#[global] Instance UnlockEvent_eq_dec : EqDecision UnlockEvent.
Proof. solve_decision. Defined.

Definition unlockEvents : list UnlockEvent := [click; touchstart; keydown].

(** ** The state *)

Record State := mkState {
  (* Game State *)
  registeredData : option RegisterData;
  lastKnownState : gmap string Unknown;
  (* Audio State *)
  audioConfig : AudioConfig;
  audioUnlocked : bool;
  audioCtx : bool;                      (* [AudioContext | null] *)
  masterGain : option Q;                (* [masterGain.gain.value] *)
  masterVolume : Q;
  iaVolume : Q;
  ambientAudios : gmap string nat;
  presetAudios : gmap Z nat;
  ttsAudio : option nat;
  progressInterval : option nat;
  (* the browser *)
  window_defined : bool;                (* [typeof window !== "undefined"] *)
  audioElements : gmap nat Audio;       (* every element created so far *)
  allocated : nat;                      (* how many were created *)
  routed : gset nat;                    (* sources connected to masterGain *)
  unlockListeners : list UnlockEvent;   (* window events bound to doUnlockAudio *)
  timers : nat;                         (* next interval handle *)
  pendingTimeouts : nat;                (* scheduled state_update replays *)
  objectUrls : list (string * string);  (* blobs behind URL.createObjectURL *)
  revoked : list string;                (* URL.revokeObjectURL *)
  (* the socket *)
  emitted : list OutEvent;
  listeners : gmap string (list Listener);
  called : list Call
}.

Definition set_registeredData (v : option RegisterData) (s : State) : State :=
  mkState v (lastKnownState s) (audioConfig s) (audioUnlocked s)
    (audioCtx s) (masterGain s) (masterVolume s) (iaVolume s)
    (ambientAudios s) (presetAudios s) (ttsAudio s) (progressInterval s)
    (window_defined s) (audioElements s) (allocated s) (routed s)
    (unlockListeners s) (timers s) (pendingTimeouts s) (objectUrls s)
    (revoked s) (emitted s) (listeners s) (called s).

Definition set_lastKnownState (v : gmap string Unknown) (s : State) : State :=
  mkState (registeredData s) v (audioConfig s) (audioUnlocked s)
    (audioCtx s) (masterGain s) (masterVolume s) (iaVolume s)
    (ambientAudios s) (presetAudios s) (ttsAudio s) (progressInterval s)
    (window_defined s) (audioElements s) (allocated s) (routed s)
    (unlockListeners s) (timers s) (pendingTimeouts s) (objectUrls s)
    (revoked s) (emitted s) (listeners s) (called s).

Definition set_audioConfig (v : AudioConfig) (s : State) : State :=
  mkState (registeredData s) (lastKnownState s) v (audioUnlocked s)
    (audioCtx s) (masterGain s) (masterVolume s) (iaVolume s)
    (ambientAudios s) (presetAudios s) (ttsAudio s) (progressInterval s)
    (window_defined s) (audioElements s) (allocated s) (routed s)
    (unlockListeners s) (timers s) (pendingTimeouts s) (objectUrls s)
    (revoked s) (emitted s) (listeners s) (called s).

Definition set_audioUnlocked (v : bool) (s : State) : State :=
  mkState (registeredData s) (lastKnownState s) (audioConfig s) v
    (audioCtx s) (masterGain s) (masterVolume s) (iaVolume s)
    (ambientAudios s) (presetAudios s) (ttsAudio s) (progressInterval s)
    (window_defined s) (audioElements s) (allocated s) (routed s)
    (unlockListeners s) (timers s) (pendingTimeouts s) (objectUrls s)
    (revoked s) (emitted s) (listeners s) (called s).

Definition set_audioCtx (v : bool) (s : State) : State :=
  mkState (registeredData s) (lastKnownState s) (audioConfig s)
    (audioUnlocked s) v (masterGain s) (masterVolume s) (iaVolume s)
    (ambientAudios s) (presetAudios s) (ttsAudio s) (progressInterval s)
    (window_defined s) (audioElements s) (allocated s) (routed s)
    (unlockListeners s) (timers s) (pendingTimeouts s) (objectUrls s)
    (revoked s) (emitted s) (listeners s) (called s).

Definition set_masterGain (v : option Q) (s : State) : State :=
  mkState (registeredData s) (lastKnownState s) (audioConfig s)
    (audioUnlocked s) (audioCtx s) v (masterVolume s) (iaVolume s)
    (ambientAudios s) (presetAudios s) (ttsAudio s) (progressInterval s)
    (window_defined s) (audioElements s) (allocated s) (routed s)
    (unlockListeners s) (timers s) (pendingTimeouts s) (objectUrls s)
    (revoked s) (emitted s) (listeners s) (called s).

Definition set_masterVolume (v : Q) (s : State) : State :=
  mkState (registeredData s) (lastKnownState s) (audioConfig s)
    (audioUnlocked s) (audioCtx s) (masterGain s) v (iaVolume s)
    (ambientAudios s) (presetAudios s) (ttsAudio s) (progressInterval s)
    (window_defined s) (audioElements s) (allocated s) (routed s)
    (unlockListeners s) (timers s) (pendingTimeouts s) (objectUrls s)
    (revoked s) (emitted s) (listeners s) (called s).

Definition set_iaVolume (v : Q) (s : State) : State :=
  mkState (registeredData s) (lastKnownState s) (audioConfig s)
    (audioUnlocked s) (audioCtx s) (masterGain s) (masterVolume s) v
    (ambientAudios s) (presetAudios s) (ttsAudio s) (progressInterval s)
    (window_defined s) (audioElements s) (allocated s) (routed s)
    (unlockListeners s) (timers s) (pendingTimeouts s) (objectUrls s)
    (revoked s) (emitted s) (listeners s) (called s).

Definition set_ambientAudios (v : gmap string nat) (s : State) : State :=
  mkState (registeredData s) (lastKnownState s) (audioConfig s)
    (audioUnlocked s) (audioCtx s) (masterGain s) (masterVolume s)
    (iaVolume s) v (presetAudios s) (ttsAudio s) (progressInterval s)
    (window_defined s) (audioElements s) (allocated s) (routed s)
    (unlockListeners s) (timers s) (pendingTimeouts s) (objectUrls s)
    (revoked s) (emitted s) (listeners s) (called s).

Definition set_presetAudios (v : gmap Z nat) (s : State) : State :=
  mkState (registeredData s) (lastKnownState s) (audioConfig s)
    (audioUnlocked s) (audioCtx s) (masterGain s) (masterVolume s)
    (iaVolume s) (ambientAudios s) v (ttsAudio s) (progressInterval s)
    (window_defined s) (audioElements s) (allocated s) (routed s)
    (unlockListeners s) (timers s) (pendingTimeouts s) (objectUrls s)
    (revoked s) (emitted s) (listeners s) (called s).

Definition set_ttsAudio (v : option nat) (s : State) : State :=
  mkState (registeredData s) (lastKnownState s) (audioConfig s)
    (audioUnlocked s) (audioCtx s) (masterGain s) (masterVolume s)
    (iaVolume s) (ambientAudios s) (presetAudios s) v (progressInterval s)
    (window_defined s) (audioElements s) (allocated s) (routed s)
    (unlockListeners s) (timers s) (pendingTimeouts s) (objectUrls s)
    (revoked s) (emitted s) (listeners s) (called s).

Definition set_progressInterval (v : option nat) (s : State) : State :=
  mkState (registeredData s) (lastKnownState s) (audioConfig s)
    (audioUnlocked s) (audioCtx s) (masterGain s) (masterVolume s)
    (iaVolume s) (ambientAudios s) (presetAudios s) (ttsAudio s) v
    (window_defined s) (audioElements s) (allocated s) (routed s)
    (unlockListeners s) (timers s) (pendingTimeouts s) (objectUrls s)
    (revoked s) (emitted s) (listeners s) (called s).

Definition set_window_defined (v : bool) (s : State) : State :=
  mkState (registeredData s) (lastKnownState s) (audioConfig s)
    (audioUnlocked s) (audioCtx s) (masterGain s) (masterVolume s)
    (iaVolume s) (ambientAudios s) (presetAudios s) (ttsAudio s)
    (progressInterval s) v (audioElements s) (allocated s) (routed s)
    (unlockListeners s) (timers s) (pendingTimeouts s) (objectUrls s)
    (revoked s) (emitted s) (listeners s) (called s).

Definition set_audioElements (v : gmap nat Audio) (s : State) : State :=
  mkState (registeredData s) (lastKnownState s) (audioConfig s)
    (audioUnlocked s) (audioCtx s) (masterGain s) (masterVolume s)
    (iaVolume s) (ambientAudios s) (presetAudios s) (ttsAudio s)
    (progressInterval s) (window_defined s) v (allocated s) (routed s)
    (unlockListeners s) (timers s) (pendingTimeouts s) (objectUrls s)
    (revoked s) (emitted s) (listeners s) (called s).

Definition set_allocated (v : nat) (s : State) : State :=
  mkState (registeredData s) (lastKnownState s) (audioConfig s)
    (audioUnlocked s) (audioCtx s) (masterGain s) (masterVolume s)
    (iaVolume s) (ambientAudios s) (presetAudios s) (ttsAudio s)
    (progressInterval s) (window_defined s) (audioElements s) v (routed s)
    (unlockListeners s) (timers s) (pendingTimeouts s) (objectUrls s)
    (revoked s) (emitted s) (listeners s) (called s).

Definition set_routed (v : gset nat) (s : State) : State :=
  mkState (registeredData s) (lastKnownState s) (audioConfig s)
    (audioUnlocked s) (audioCtx s) (masterGain s) (masterVolume s)
    (iaVolume s) (ambientAudios s) (presetAudios s) (ttsAudio s)
    (progressInterval s) (window_defined s) (audioElements s) (allocated s) v
    (unlockListeners s) (timers s) (pendingTimeouts s) (objectUrls s)
    (revoked s) (emitted s) (listeners s) (called s).

Definition set_unlockListeners (v : list UnlockEvent) (s : State) : State :=
  mkState (registeredData s) (lastKnownState s) (audioConfig s)
    (audioUnlocked s) (audioCtx s) (masterGain s) (masterVolume s)
    (iaVolume s) (ambientAudios s) (presetAudios s) (ttsAudio s)
    (progressInterval s) (window_defined s) (audioElements s) (allocated s)
    (routed s) v (timers s) (pendingTimeouts s) (objectUrls s) (revoked s)
    (emitted s) (listeners s) (called s).

Definition set_timers (v : nat) (s : State) : State :=
  mkState (registeredData s) (lastKnownState s) (audioConfig s)
    (audioUnlocked s) (audioCtx s) (masterGain s) (masterVolume s)
    (iaVolume s) (ambientAudios s) (presetAudios s) (ttsAudio s)
    (progressInterval s) (window_defined s) (audioElements s) (allocated s)
    (routed s) (unlockListeners s) v (pendingTimeouts s) (objectUrls s)
    (revoked s) (emitted s) (listeners s) (called s).

Definition set_pendingTimeouts (v : nat) (s : State) : State :=
  mkState (registeredData s) (lastKnownState s) (audioConfig s)
    (audioUnlocked s) (audioCtx s) (masterGain s) (masterVolume s)
    (iaVolume s) (ambientAudios s) (presetAudios s) (ttsAudio s)
    (progressInterval s) (window_defined s) (audioElements s) (allocated s)
    (routed s) (unlockListeners s) (timers s) v (objectUrls s) (revoked s)
    (emitted s) (listeners s) (called s).

Definition set_objectUrls (v : list (string * string)) (s : State) : State :=
  mkState (registeredData s) (lastKnownState s) (audioConfig s)
    (audioUnlocked s) (audioCtx s) (masterGain s) (masterVolume s)
    (iaVolume s) (ambientAudios s) (presetAudios s) (ttsAudio s)
    (progressInterval s) (window_defined s) (audioElements s) (allocated s)
    (routed s) (unlockListeners s) (timers s) (pendingTimeouts s) v
    (revoked s) (emitted s) (listeners s) (called s).

Definition set_revoked (v : list string) (s : State) : State :=
  mkState (registeredData s) (lastKnownState s) (audioConfig s)
    (audioUnlocked s) (audioCtx s) (masterGain s) (masterVolume s)
    (iaVolume s) (ambientAudios s) (presetAudios s) (ttsAudio s)
    (progressInterval s) (window_defined s) (audioElements s) (allocated s)
    (routed s) (unlockListeners s) (timers s) (pendingTimeouts s)
    (objectUrls s) v (emitted s) (listeners s) (called s).

Definition set_emitted (v : list OutEvent) (s : State) : State :=
  mkState (registeredData s) (lastKnownState s) (audioConfig s)
    (audioUnlocked s) (audioCtx s) (masterGain s) (masterVolume s)
    (iaVolume s) (ambientAudios s) (presetAudios s) (ttsAudio s)
    (progressInterval s) (window_defined s) (audioElements s) (allocated s)
    (routed s) (unlockListeners s) (timers s) (pendingTimeouts s)
    (objectUrls s) (revoked s) v (listeners s) (called s).

Definition set_listeners (v : gmap string (list Listener)) (s : State) : State :=
  mkState (registeredData s) (lastKnownState s) (audioConfig s)
    (audioUnlocked s) (audioCtx s) (masterGain s) (masterVolume s)
    (iaVolume s) (ambientAudios s) (presetAudios s) (ttsAudio s)
    (progressInterval s) (window_defined s) (audioElements s) (allocated s)
    (routed s) (unlockListeners s) (timers s) (pendingTimeouts s)
    (objectUrls s) (revoked s) (emitted s) v (called s).

Definition set_called (v : list Call) (s : State) : State :=
  mkState (registeredData s) (lastKnownState s) (audioConfig s)
    (audioUnlocked s) (audioCtx s) (masterGain s) (masterVolume s)
    (iaVolume s) (ambientAudios s) (presetAudios s) (ttsAudio s)
    (progressInterval s) (window_defined s) (audioElements s) (allocated s)
    (routed s) (unlockListeners s) (timers s) (pendingTimeouts s)
    (objectUrls s) (revoked s) (emitted s) (listeners s) v.

(** ** Browser primitives *)

(** Property write or method call on the element [h]. *)
Definition update_element (h : nat) (f : Audio → Audio) (s : State) : State :=
  set_audioElements (alter f h (audioElements s)) s.

(** [new Audio(url)], returning the reference to the new element. *)
Definition construct_Audio (url : string) (s : State) : nat * State :=
  let h := allocated s in
  (h, set_allocated (S h)
        (set_audioElements (<[h := new_Audio url]> (audioElements s)) s)).

Definition pause (h : nat) : State → State := update_element h (with_paused true).
Definition play (h : nat) : State → State := update_element h (with_paused false).

(** The pair [audio.pause(); audio.src = ""] that tears an element down. *)
Definition pause_and_release (h : nat) (s : State) : State :=
  update_element h (with_src "") (pause h s).

(** [socket.emit]. *)
Definition emit (e : OutEvent) (s : State) : State :=
  set_emitted (emitted s ++ [e]) s.

(** The socket's emitter: [on] appends, [off(name)] drops every listener of
    the name, [off(name, fn)] drops the first listener identical to [fn]. *)
Definition listeners_of (name : string) (s : State) : list Listener :=
  default [] (listeners s !! name).

Definition socket_on (name : string) (l : Listener) (s : State) : State :=
  set_listeners (<[name := listeners_of name s ++ [l]]> (listeners s)) s.

Definition socket_off_all (name : string) (s : State) : State :=
  set_listeners (delete name (listeners s)) s.

Fixpoint remove_first (l : Listener) (ls : list Listener) : list Listener :=
  match ls with
  | [] => []
  | x :: ls' => if decide (x = l) then ls' else x :: remove_first l ls'
  end.

Definition socket_off (name : string) (l : Listener) (s : State) : State :=
  match listeners s !! name with
  | None => s
  | Some ls =>
      match remove_first l ls with
      | [] => set_listeners (delete name (listeners s)) s
      | ls' => set_listeners (<[name := ls']> (listeners s)) s
      end
  end.

(** JavaScript truthiness of a number: NaN and 0 are falsy. *)
Definition truthy_number (d : option Q) : bool :=
  match d with
  | Some q => negb (Qeq_bool q 0)
  | None => false
  end.

(** ** Audio helpers *)

Definition initAudioContext (s : State) : State :=
  if audioCtx s then s
  else set_masterGain (Some (masterVolume s)) (set_audioCtx true s).

(** A second [createMediaElementSource] on one element throws and is
    caught: connecting is idempotent. *)
Definition routeThroughMaster (audio : nat) (s : State) : State :=
  if negb (audioCtx s) then s
  else match masterGain s with
       | None => s
       | Some _ => set_routed ({[audio]} ∪ routed s) s
       end.

Definition startProgressReporting (s : State) : State :=
  match progressInterval s with
  | Some _ => s
  | None => set_progressInterval (Some (timers s)) (set_timers (S (timers s)) s)
  end.

Definition stopProgressReporting (s : State) : State :=
  match progressInterval s with
  | Some _ => set_progressInterval None s
  | None => s
  end.

(** [window.addEventListener] ignores a listener that is already bound to
    the event. *)
Definition addEventListener (e : UnlockEvent) (s : State) : State :=
  if bool_decide (e ∈ unlockListeners s) then s
  else set_unlockListeners (unlockListeners s ++ [e]) s.

Definition removeEventListener (e : UnlockEvent) (s : State) : State :=
  set_unlockListeners (filter (λ x, x ≠ e) (unlockListeners s)) s.

Definition addUnlockListeners (s : State) : State :=
  if negb (window_defined s) then s
  else foldl (λ s e, addEventListener e s) s unlockEvents.

Definition removeUnlockListeners (s : State) : State :=
  if negb (window_defined s) then s
  else foldl (λ s e, removeEventListener e s) s unlockEvents.

(** The primer buffer is played straight into the destination and leaves
    no trace in the state. *)
Definition doUnlockAudio (s : State) : State :=
  if audioUnlocked s || negb (enabled (audioConfig s)) then s
  else
    let s := initAudioContext s in
    let s := set_audioUnlocked true s in
    let s := emit out_register_audio_player s in
    let s := startProgressReporting s in
    removeUnlockListeners s.

(** The body of the interval callback.  The map is walked in the order of
    [map_to_list]. *)
Definition report_progress (s : State) : State :=
  foldl (λ s '(idx, h),
           match audioElements s !! h with
           | Some audio =>
               if negb (paused audio) && truthy_number (duration audio)
               then emit (out_preset_progress idx (Some (currentTime audio))
                            (duration audio) None) s
               else s
           | None => s
           end)
        s (map_to_list (presetAudios s)).

Definition release_all (hs : list nat) (s : State) : State :=
  foldl (λ s h, pause_and_release h s) s hs.

Definition stopAllAudio (s : State) : State :=
  let s := release_all (map_to_list (ambientAudios s)).*2 s in
  let s := set_ambientAudios ∅ s in
  let s := release_all (map_to_list (presetAudios s)).*2 s in
  let s := set_presetAudios ∅ s in
  match ttsAudio s with
  | Some h => set_ttsAudio None (pause_and_release h s)
  | None => s
  end.

(** ** Audio event listeners

    The arrows registered by [setupAudioEventListeners], one definition per
    event name. *)

(** The guard [!audioUnlocked || !audioConfig.enabled] of the play
    handlers. *)
Definition gate_closed (s : State) : bool :=
  negb (audioUnlocked s) || negb (enabled (audioConfig s)).

(** First half of the play-ambient handler: tear down [existing]. *)
Definition release_existing_ambient (soundId : string) (s : State) : State :=
  match ambientAudios s !! soundId with
  | Some existing => pause_and_release existing s
  | None => s
  end.

(** Second half: create, configure, start and store the new element. *)
Definition start_ambient (soundId file : string) (volume : option Q)
    (s : State) : State :=
  let '(audio, s) := construct_Audio (BACKOFFICE_URL +:+ "/sounds/" +:+ file) s in
  let s := update_element audio (with_loop true) s in
  let s := update_element audio (with_volume (default 0.5%Q volume)) s in
  let s := routeThroughMaster audio s in
  let s := play audio s in
  set_ambientAudios (<[soundId := audio]> (ambientAudios s)) s.

Definition on_play_ambient (soundId file : string) (volume : option Q)
    (s : State) : State :=
  if gate_closed s then s
  else start_ambient soundId file volume (release_existing_ambient soundId s).

Definition on_stop_ambient (soundId : string) (s : State) : State :=
  match ambientAudios s !! soundId with
  | Some audio =>
      let s := pause_and_release audio s in
      set_ambientAudios (delete soundId (ambientAudios s)) s
  | None => s
  end.

Definition on_volume_ambient (soundId : string) (v : Q) (s : State) : State :=
  match ambientAudios s !! soundId with
  | Some audio => update_element audio (with_volume v) s
  | None => s
  end.

(** [existing && existing.src]: the slot holds an element whose [src] is a
    non-empty string. *)
Definition resumable (presetIdx : Z) (s : State) : option nat :=
  match presetAudios s !! presetIdx with
  | Some existing =>
      match audioElements s !! existing with
      | Some a => if decide (src a = "") then None else Some existing
      | None => None
      end
  | None => None
  end.

Definition on_play_preset (presetIdx : Z) (file : string) (s : State) : State :=
  if gate_closed s then s
  else match resumable presetIdx s with
       | Some existing =>
           let s := update_element existing (with_volume (iaVolume s)) s in
           play existing s
       | None =>
           let '(audio, s) :=
             construct_Audio (BACKOFFICE_URL +:+ "/presets/" +:+ file) s in
           let s := update_element audio (with_volume (iaVolume s)) s in
           let s := routeThroughMaster audio s in
           let s := update_element audio
                      (with_onended (Some (PresetEnded presetIdx audio))) s in
           let s := play audio s in
           set_presetAudios (<[presetIdx := audio]> (presetAudios s)) s
       end.

Definition on_pause_preset (presetIdx : Z) (s : State) : State :=
  match presetAudios s !! presetIdx with
  | Some audio => pause audio s
  | None => s
  end.

Definition on_seek_preset (presetIdx : Z) (time : Q) (s : State) : State :=
  match presetAudios s !! presetIdx with
  | Some audio => update_element audio (with_currentTime time) s
  | None => s
  end.

Definition on_stop_preset (presetIdx : Z) (s : State) : State :=
  match presetAudios s !! presetIdx with
  | Some audio =>
      let s := pause_and_release audio s in
      set_presetAudios (delete presetIdx (presetAudios s)) s
  | None => s
  end.

(** The payload is taken to be well-formed base64; the blob is recorded by
    the payload it decodes and its type, and its object URL is numbered. *)
Definition on_play_tts (audioBase64 : string) (mimeType : option string)
    (s : State) : State :=
  if gate_closed s then s
  else
    let s := match ttsAudio s with
             | Some old => pause_and_release old s
             | None => s
             end in
    let type := match mimeType with
                | Some t => if decide (t = "") then "audio/mpeg" else t
                | None => "audio/mpeg"
                end in
    let url := "blob:" +:+ pretty (length (objectUrls s)) in
    let s := set_objectUrls (objectUrls s ++ [(audioBase64, type)]) s in
    let '(audio, s) := construct_Audio url s in
    let s := set_ttsAudio (Some audio) s in
    let s := update_element audio (with_volume (iaVolume s)) s in
    let s := routeThroughMaster audio s in
    let s := update_element audio (with_onended (Some (TtsEnded url))) s in
    play audio s.

Definition on_volume_ia (v : Q) (s : State) : State :=
  let s := set_iaVolume v s in
  let s := foldl (λ s h, update_element h (with_volume (iaVolume s)) s) s
             (map_to_list (presetAudios s)).*2 in
  match ttsAudio s with
  | Some h => update_element h (with_volume (iaVolume s)) s
  | None => s
  end.

Definition on_master_volume (v : Q) (s : State) : State :=
  let s := set_masterVolume v s in
  match masterGain s with
  | Some _ => set_masterGain (Some (masterVolume s)) s
  | None => s
  end.

Definition on_stop_all (s : State) : State := stopAllAudio s.

(** [audio.onended] of a preset element. *)
Definition preset_onended (presetIdx : Z) (audio : nat) (s : State) : State :=
  let d := match audioElements s !! audio with
           | Some a => duration a
           | None => None
           end in
  let s := emit (out_preset_progress presetIdx d d (Some true)) s in
  set_presetAudios (delete presetIdx (presetAudios s)) s.

(** [ttsAudio.onended]. *)
Definition tts_onended (url : string) (s : State) : State :=
  set_ttsAudio None (set_revoked (revoked s ++ [url]) s).

Definition setupAudioEventListeners (s : State) : State :=
  foldl (λ s name, socket_on name AudioListener s) s
    ["audio:play-ambient"; "audio:stop-ambient"; "audio:volume-ambient";
     "audio:play-preset"; "audio:pause-preset"; "audio:seek-preset";
     "audio:stop-preset"; "audio:play-tts"; "audio:volume-ia";
     "audio:master-volume"; "audio:stop-all"].

(** ** Game connection handlers *)

Definition on_connect (s : State) : State :=
  let s := match registeredData s with
           | Some data =>
               let s := emit (out_register data) s in
               if bool_decide (lastKnownState s = ∅) then s
               else set_pendingTimeouts (S (pendingTimeouts s)) s
           | None => s
           end in
  if audioUnlocked s && enabled (audioConfig s)
  then emit out_register_audio_player s
  else s.

(** The arrow handed to [setTimeout] by the connect handler. *)
Definition replay_state (s : State) : State :=
  emit (out_state_update (lastKnownState s)) s.

Definition initAudio (s : State) : State :=
  if negb (window_defined s) then s
  else
    let s := setupAudioEventListeners s in
    if autoUnlock (audioConfig s) then addUnlockListeners s else s.

(** ** Delivery of socket events *)

Definition audio_listener (e : SocketEvent) (s : State) : State :=
  match e with
  | audio_play_ambient soundId file v => on_play_ambient soundId file v s
  | audio_stop_ambient soundId => on_stop_ambient soundId s
  | audio_volume_ambient soundId v => on_volume_ambient soundId v s
  | audio_play_preset presetIdx file => on_play_preset presetIdx file s
  | audio_pause_preset presetIdx => on_pause_preset presetIdx s
  | audio_seek_preset presetIdx time => on_seek_preset presetIdx time s
  | audio_stop_preset presetIdx => on_stop_preset presetIdx s
  | audio_play_tts audioBase64 mimeType => on_play_tts audioBase64 mimeType s
  | audio_volume_ia v => on_volume_ia v s
  | audio_master_volume v => on_master_volume v s
  | audio_stop_all => on_stop_all s
  | _ => s
  end.

Definition call (callback : nat) (e : SocketEvent) (s : State) : State :=
  set_called (called s ++ [(callback, e)]) s.

Definition run_listener (l : Listener) (e : SocketEvent) (s : State) : State :=
  match l with
  | AudioListener => audio_listener e s
  | ConnectListener => on_connect s
  | DisconnectListener => s
  | CommandListener callback =>
      match e with
      | command data =>
          call callback (command (mkCommand (action data) (payload data))) s
      | _ => s
      end
  | Callback callback => call callback e s
  end.

(** The socket runs the listeners registered under the event's name, in
    registration order. *)
Definition deliver (e : SocketEvent) (s : State) : State :=
  foldl (λ s l, run_listener l e s) s (listeners_of (event_name e) s).

(** ** The exported [gamemaster] object *)

Inductive ApiCall :=
  | register (gameId name : string) (availableActions : option (list GameAction))
      (role : option string)
  | onCommand (callback : nat)
  | updateState (state : gmap string Unknown)
  | resetState
  | sendEvent (name : string) (data : option (gmap string Unknown))
  | sendMessage (message : Unknown)
  | onMessage (callback : nat)
  | onConnect (callback : nat)
  | onDisconnect (callback : nat)
  | configureAudio (config : PartialAudioConfig)
  | unlockAudio
  | disableAudio
  | enableAudio.

Definition api_register (gameId name : string)
    (actions : option (list GameAction)) (role : option string)
    (s : State) : State :=
  let data := mkRegisterData gameId name (default [] actions) role in
  emit (out_register data) (set_registeredData (Some data) s).

Definition api_onCommand (callback : nat) (s : State) : State :=
  socket_on "command" (CommandListener callback) (socket_off_all "command" s).

Definition api_updateState (state : gmap string Unknown) (s : State) : State :=
  let s := set_lastKnownState (state ∪ lastKnownState s) s in
  emit (out_state_update (lastKnownState s)) s.

Definition api_resetState (s : State) : State := set_lastKnownState ∅ s.

Definition api_sendEvent (name : string) (data : option (gmap string Unknown))
    (s : State) : State :=
  emit (out_event name (default ∅ data)) s.

Definition api_sendMessage (message : Unknown) (s : State) : State :=
  emit (out_game_message message) s.

Definition api_onMessage (callback : nat) (s : State) : State :=
  socket_on "game-message" (Callback callback)
    (socket_off_all "game-message" s).

Definition api_onConnect (callback : nat) (s : State) : State :=
  socket_on "connect" (Callback callback)
    (socket_off "connect" (Callback callback) s).

Definition api_onDisconnect (callback : nat) (s : State) : State :=
  socket_on "disconnect" (Callback callback)
    (socket_off "disconnect" (Callback callback) s).

(** [{ ...audioConfig, ...config }]. *)
Definition merge_config (c : AudioConfig) (p : PartialAudioConfig) : AudioConfig :=
  mkAudioConfig (default (enabled c) (partial_enabled p))
    (default (autoUnlock c) (partial_autoUnlock p))
    (default (debug c) (partial_debug p)).

(** [config.enabled && config.autoUnlock !== false &&
    typeof window !== "undefined"]. *)
Definition rearm_condition (config : PartialAudioConfig) (s : State) : bool :=
  default false (partial_enabled config)
  && negb (bool_decide (partial_autoUnlock config = Some false))
  && window_defined s.

Definition api_configureAudio (config : PartialAudioConfig) (s : State) : State :=
  let s := set_audioConfig (merge_config (audioConfig s) config) s in
  let s := if rearm_condition config s then addUnlockListeners s else s in
  if bool_decide (partial_enabled config = Some false)
  then stopProgressReporting (stopAllAudio s)
  else s.

Definition api_unlockAudio (s : State) : bool * State :=
  if audioUnlocked s then (true, s)
  else if negb (enabled (audioConfig s)) then (false, s)
  else let s := doUnlockAudio s in (audioUnlocked s, s).

Definition set_enabled (v : bool) (c : AudioConfig) : AudioConfig :=
  mkAudioConfig v (autoUnlock c) (debug c).

Definition api_disableAudio (s : State) : State :=
  let s := set_audioConfig (set_enabled false (audioConfig s)) s in
  stopProgressReporting (stopAllAudio s).

Definition api_enableAudio (s : State) : State :=
  let s := set_audioConfig (set_enabled true (audioConfig s)) s in
  if audioUnlocked s
  then startProgressReporting (emit out_register_audio_player s)
  else s.

Definition api (c : ApiCall) (s : State) : State :=
  match c with
  | register gameId name actions role => api_register gameId name actions role s
  | onCommand callback => api_onCommand callback s
  | updateState state => api_updateState state s
  | resetState => api_resetState s
  | sendEvent name data => api_sendEvent name data s
  | sendMessage message => api_sendMessage message s
  | onMessage callback => api_onMessage callback s
  | onConnect callback => api_onConnect callback s
  | onDisconnect callback => api_onDisconnect callback s
  | configureAudio config => api_configureAudio config s
  | unlockAudio => snd (api_unlockAudio s)
  | disableAudio => api_disableAudio s
  | enableAudio => api_enableAudio s
  end.

(** ** What the browser does *)

Inductive BrowserEvent :=
  | gesture (e : UnlockEvent)
  | interval_fires
  | timeout_fires
  | media_loadedmetadata (h : nat) (d : Q)
  | media_timeupdate (h : nat) (t : Q)
  | media_play_rejected (h : nat)
  | media_ended (h : nat).

(** A gesture runs [doUnlockAudio] if the event is still bound to it; the
    binding is [once] and goes first. *)
Definition on_gesture (e : UnlockEvent) (s : State) : State :=
  if bool_decide (e ∈ unlockListeners s)
  then doUnlockAudio (removeEventListener e s)
  else s.

(** An element that is loaded and running. *)
Definition playing (a : Audio) : bool :=
  negb (paused a) && negb (bool_decide (src a = "")) && negb (ended a).

(** Only a running element that does not loop reaches its end; its
    position is then its duration and its [onended] runs. *)
Definition on_media_ended (h : nat) (s : State) : State :=
  match audioElements s !! h with
  | Some a =>
      if playing a && negb (loop a) && truthy_number (duration a) then
        let s := update_element h (with_ended true) s in
        let s := update_element h
                   (with_currentTime (default 0%Q (duration a))) s in
        match onended a with
        | Some (PresetEnded presetIdx audio) => preset_onended presetIdx audio s
        | Some (TtsEnded url) => tts_onended url s
        | None => s
        end
      else s
  | None => s
  end.

Definition browser (e : BrowserEvent) (s : State) : State :=
  match e with
  | gesture e => on_gesture e s
  | interval_fires =>
      match progressInterval s with
      | Some _ => report_progress s
      | None => s
      end
  | timeout_fires =>
      match pendingTimeouts s with
      | O => s
      | S n => replay_state (set_pendingTimeouts n s)
      end
  | media_loadedmetadata h d =>
      match audioElements s !! h with
      | Some a => if bool_decide (src a = "") then s
                  else update_element h (with_duration (Some d)) s
      | None => s
      end
  | media_timeupdate h t =>
      match audioElements s !! h with
      | Some a => if playing a then update_element h (with_currentTime t) s
                  else s
      | None => s
      end
  | media_play_rejected h => update_element h (with_paused true) s
  | media_ended h => on_media_ended h s
  end.

(** ** The module as a transition system *)

Inductive Event :=
  | from_socket (e : SocketEvent)
  | from_caller (c : ApiCall)
  | from_browser (e : BrowserEvent).

Definition step (e : Event) (s : State) : State :=
  match e with
  | from_socket e => deliver e s
  | from_caller c => api c s
  | from_browser e => browser e s
  end.

Definition run (es : list Event) (s : State) : State :=
  foldl (λ s e, step e s) s es.

(** The declared initial values of the module variables, before any
    top-level statement has run. *)
Definition declared : State :=
  mkState None ∅ (mkAudioConfig true true false) false false None 1%Q 1%Q
    ∅ ∅ None None true ∅ 0 ∅ [] 0 0 [] [] [] ∅ [].

(** The state once the module has been evaluated.  The last statement
    assigns to [window], so evaluation completes only where [window] is
    defined. *)
Definition loaded : State :=
  initAudio
    (socket_on "disconnect" DisconnectListener
       (socket_on "connect" ConnectListener declared)).

Inductive reachable : State → Prop :=
  | reachable_loaded : reachable loaded
  | reachable_step e s : reachable s → reachable (step e s).

(** ** The ElevenLabs voice lookup (src/utils/elevenlabs.ts) *)

Module ElevenLabs.








End ElevenLabs.

(** ** Invariant of the reachable states *)

Definition is_audio_event (e : SocketEvent) : bool :=
  match e with
  | connect | disconnect _ | command _ | game_message _ => false
  | _ => true
  end.

(** An element that has not been torn down. *)
Definition live (a : Audio) : Prop := src a ≠ "".

(** A live ambient instance is a live looping element: only the
    play-ambient handler sets [loop]. *)
Definition live_ambient (a : Audio) : Prop := loop a = true ∧ live a.

(** The store and the three owners of elements agree: ambient slots hold
    live looping elements, each owned by one id; preset slots hold live
    elements that carry their own end-of-clip handler; the speech clip is a
    non-looping element with the speech handler. *)
Record Wf (s : State) : Prop := mkWf {
  wf_fresh : ∀ h, is_Some (audioElements s !! h) → h < allocated s;
  wf_ambient : ∀ id h, ambientAudios s !! id = Some h →
    ∃ a, audioElements s !! h = Some a ∧ live_ambient a;
  wf_ambient_owner : ∀ h a, audioElements s !! h = Some a →
    live_ambient a → ∃ id, ambientAudios s !! id = Some h;
  wf_ambient_inj : ∀ id1 id2 h, ambientAudios s !! id1 = Some h →
    ambientAudios s !! id2 = Some h → id1 = id2;
  wf_preset : ∀ idx h, presetAudios s !! idx = Some h →
    ∃ a, audioElements s !! h = Some a ∧ loop a = false ∧ live a ∧
         ended a = false ∧ onended a = Some (PresetEnded idx h);
  wf_preset_handler : ∀ h a idx h', audioElements s !! h = Some a →
    onended a = Some (PresetEnded idx h') → live a → ended a = false →
    h' = h ∧ presetAudios s !! idx = Some h;
  wf_tts : ∀ h, ttsAudio s = Some h →
    ∃ a url, audioElements s !! h = Some a ∧ loop a = false ∧
             onended a = Some (TtsEnded url)
}.

Record Inv (s : State) : Prop := mkInv {
  inv_wf : Wf s;
  inv_gate : gate_closed s = true →
    ambientAudios s = ∅ ∧ presetAudios s = ∅ ∧ ttsAudio s = None;
  inv_listeners : ∀ e, is_audio_event e = true →
    listeners_of (event_name e) s = [AudioListener]
}.

(** What [pause_and_release] makes of an element, and of the store when it
    is applied to a list of elements. *)
Definition torn_down (a : Audio) : Audio := with_src "" (with_paused true a).

Definition released (hs : list nat) (m : gmap nat Audio) : gmap nat Audio :=
  foldl (λ m h, alter (with_src "") h (alter (with_paused true) h m)) m hs.

(** An update of an element that the invariant cannot see. *)
Definition cosmetic (f : Audio → Audio) : Prop :=
  ∀ a, src (f a) = src a ∧ loop (f a) = loop a ∧ ended (f a) = ended a ∧
       onended (f a) = onended a.

(** The elements a slot or the speech clip refers to. *)
Definition referenced (s : State) : list nat :=
  (map_to_list (ambientAudios s)).*2 ++ (map_to_list (presetAudios s)).*2
  ++ match ttsAudio s with Some h => [h] | None => [] end.



(** The three kinds of element the handlers create: a looping ambient
    sound, a preset clip with its end-of-clip handler, a speech clip with
    its own. *)
Definition kind_of (a : Audio) : Prop :=
  loop a = true
  ∨ (∃ idx h, onended a = Some (PresetEnded idx h))
  ∨ (∃ url, onended a = Some (TtsEnded url)).

(** Every loaded element has a kind, and a loaded speech element that has
    not reached its end is the current speech clip. *)
Record Kinds (s : State) : Prop := mkKinds {
  kd_kind : ∀ h a, audioElements s !! h = Some a → live a → kind_of a;
  kd_tts : ∀ h a url, audioElements s !! h = Some a → live a →
    ended a = false → onended a = Some (TtsEnded url) → ttsAudio s = Some h
}.

(** An update that loads nothing, and changes neither the kind of an
    element nor an ended element into a running one. *)
Definition shrinking (f : Audio → Audio) : Prop :=
  ∀ a, (live (f a) → live a) ∧ loop (f a) = loop a
       ∧ onended (f a) = onended a ∧ (ended (f a) = false → ended a = false).

(** The report the interval callback sends for one slot, if any. *)
Definition progress_report (s : State) (slot : Z * nat) : option OutEvent :=
  match audioElements s !! slot.2 with
  | Some audio =>
      if negb (paused audio) && truthy_number (duration audio)
      then Some (out_preset_progress slot.1 (Some (currentTime audio))
                   (duration audio) None)
      else None
  | None => None
  end.

(** ** The status getters of the exported object *)


Definition isAudioReady (s : State) : bool :=
  audioUnlocked s && enabled (audioConfig s).


(** ** The message display (src/App.tsx)

    The component keeps what is on screen in React state and the waiting
    messages in a ref.  [showMessage] is a chain of timeouts, one pending at
    a time; a pending timeout is kept with its delay and the callback it
    will run.  The values given to [setCurrentMessage] are recorded in
    [rendered], in order; [elapsed] adds up the delays of the timeouts that
    have fired.  The list of predefined messages comes from a data file and
    is a parameter.  The test controls of the footer are left out. *)

Module App.

Record Message := mkMessage {
  id : string;
  content : option string;   (* [None]: a custom message built from a
                                payload without [content] *)
  delay : Z;
  duration : option nat
}.

Definition DISPLAY_DURATION : nat := 5000.

(** The callbacks handed to [setTimeout] by [showMessage]. *)
Inductive Callback :=
  | typeChar (message : Message) (charIndex : nat)
  | fadeOut
  | hide
  | resolve.

Record State := mkState {
  currentMessage : string;
  isTyping : bool;
  isFadingOut : bool;
  isVisible : bool;
  messageQueue : list Message;
  isProcessing : bool;
  timeout : option (nat * Callback);
  rendered : list string;
  elapsed : nat
}.

Definition initial : State := mkState "" false false false [] false None [] 0.

Definition setCurrentMessage (v : string) (s : State) : State :=
  mkState v (isTyping s) (isFadingOut s) (isVisible s) (messageQueue s)
    (isProcessing s) (timeout s) (rendered s ++ [v]) (elapsed s).
Definition setIsTyping (v : bool) (s : State) : State :=
  mkState (currentMessage s) v (isFadingOut s) (isVisible s) (messageQueue s)
    (isProcessing s) (timeout s) (rendered s) (elapsed s).
Definition setIsFadingOut (v : bool) (s : State) : State :=
  mkState (currentMessage s) (isTyping s) v (isVisible s) (messageQueue s)
    (isProcessing s) (timeout s) (rendered s) (elapsed s).
Definition setIsVisible (v : bool) (s : State) : State :=
  mkState (currentMessage s) (isTyping s) (isFadingOut s) v (messageQueue s)
    (isProcessing s) (timeout s) (rendered s) (elapsed s).
Definition set_messageQueue (v : list Message) (s : State) : State :=
  mkState (currentMessage s) (isTyping s) (isFadingOut s) (isVisible s) v
    (isProcessing s) (timeout s) (rendered s) (elapsed s).
Definition set_isProcessing (v : bool) (s : State) : State :=
  mkState (currentMessage s) (isTyping s) (isFadingOut s) (isVisible s)
    (messageQueue s) v (timeout s) (rendered s) (elapsed s).
Definition setTimeout (cb : Callback) (ms : nat) (s : State) : State :=
  mkState (currentMessage s) (isTyping s) (isFadingOut s) (isVisible s)
    (messageQueue s) (isProcessing s) (Some (ms, cb)) (rendered s) (elapsed s).
Definition timeout_fired (ms : nat) (s : State) : State :=
  mkState (currentMessage s) (isTyping s) (isFadingOut s) (isVisible s)
    (messageQueue s) (isProcessing s) None (rendered s) (elapsed s + ms).

(** The synchronous part of [showMessage]. *)
Definition showMessage (message : Message) (s : State) : State :=
  let s := setCurrentMessage "" s in
  let s := setIsTyping true s in
  let s := setIsFadingOut false s in
  let s := setIsVisible true s in
  setTimeout (typeChar message 0) 200 s.

(** The loop of [processMessageQueue], entered at its test: it runs until
    the first [await]. *)
Definition next_message (s : State) : State :=
  match messageQueue s with
  | message :: rest => showMessage message (set_messageQueue rest s)
  | [] => set_isProcessing false s
  end.

Definition processMessageQueue (s : State) : State :=
  if isProcessing s || bool_decide (messageQueue s = []) then s
  else next_message (set_isProcessing true s).

Definition addMessageToQueue (message : Message) (s : State) : State :=
  processMessageQueue (set_messageQueue (messageQueue s ++ [message]) s).

(** What a callback does when its timeout fires.  [typeChar] on a message
    without content throws on [content.length]: nothing more is scheduled
    and the promise is never resolved. *)
Definition run_callback (cb : Callback) (s : State) : State :=
  match cb with
  | typeChar message charIndex =>
      match content message with
      | None => s
      | Some c =>
          if charIndex <? String.length c then
            let s := setCurrentMessage (String.substring 0 (charIndex + 1) c) s in
            setTimeout (typeChar message (charIndex + 1)) 50 s
          else
            let s := setIsTyping false s in
            setTimeout fadeOut (default DISPLAY_DURATION (duration message)) s
      end
  | fadeOut => setTimeout hide 800 (setIsFadingOut true s)
  | hide =>
      let s := setIsVisible false s in
      let s := setIsFadingOut false s in
      let s := setCurrentMessage "" s in
      setTimeout resolve 300 s
  | resolve => next_message s
  end.

(** The pending timeout fires. *)
Definition fire (s : State) : State :=
  match timeout s with
  | Some (ms, cb) => run_callback cb (timeout_fired ms s)
  | None => s
  end.

Section commands.
Variable predefinedMessages : list Message.

(** [messageId] is [None] when the payload has no such field: no message
    has an undefined id. *)
Definition sendPredefinedMessage (messageId : option string) (s : State) : State :=
  match messageId with
  | Some i =>
      match List.find (λ m, bool_decide (id m = i)) predefinedMessages with
      | Some message => addMessageToQueue message s
      | None => s
      end
  | None => s
  end.

(** [now] is the value of [Date.now()]. *)
Definition sendCustomMessage (now : N) (c : option string) (s : State) : State :=
  addMessageToQueue (mkMessage ("custom-" +:+ pretty now) c 0 None) s.

(** The callback given to [gamemaster.onCommand].  For an action that
    starts with "msg_", replacing the first "msg_" by nothing drops these
    four characters. *)
Definition on_command (now : N) (action : string)
    (payload : gmap string Unknown) (s : State) : State :=
  if decide (action = "send_predefined") then
    sendPredefinedMessage (payload !! "messageId") s
  else if decide (action = "send_custom") then
    sendCustomMessage now (payload !! "content") s
  else if decide (action = "start_sequence") then
    foldl (λ s m, addMessageToQueue m s) s predefinedMessages
  else if String.prefix "msg_" action then
    sendPredefinedMessage
      (Some (String.substring 4 (String.length action - 4) action)) s
  else s.

(** The actions announced by [gamemaster.register] when the component
    mounts. *)
Definition announced_actions : list GameAction :=
  [mkGameAction "send_predefined" "Envoyer prédéfini" (Some ["messageId"]);
   mkGameAction "send_custom" "Envoyer custom" (Some ["content"]);
   mkGameAction "start_sequence" "Séquence intro" None]
  ++ map (λ m, mkGameAction ("msg_" +:+ id m)
                 (String.substring 0 40 (default "" (content m))) None)
       predefinedMessages.

End commands.













Inductive Event :=
  | add (m : Message)
  | timeout_fires.

Definition step (e : Event) (s : State) : State :=
  match e with
  | add m => addMessageToQueue m s
  | timeout_fires => fire s
  end.

Definition run (es : list Event) (s : State) : State :=
  foldl (λ s e, step e s) s es.

Definition added (es : list Event) : list Message :=
  omap (λ e, match e with add m => Some m | timeout_fires => None end) es.

End App.

(** * Properties *)

(** ** Frame equations: what the helpers leave alone *)

Lemma foldl_preserves {A B} (P : A → Prop) (f : A → B → A) (l : list B) (a : A) :
  P a → (∀ a b, P a → P (f a b)) → P (foldl f a l).
Proof.
  intros Ha Hf. revert a Ha. induction l as [|b l IH]; simpl; auto.
Qed.

Lemma addUnlockListeners_frame s :
  addUnlockListeners s = set_unlockListeners (unlockListeners (addUnlockListeners s)) s.
Proof.
  unfold addUnlockListeners. destruct (window_defined s); simpl.
  - unfold addEventListener. repeat (case_bool_decide; simpl); by destruct s.
  - by destruct s.
Qed.

Lemma removeUnlockListeners_frame s :
  removeUnlockListeners s
  = set_unlockListeners (unlockListeners (removeUnlockListeners s)) s.
Proof.
  unfold removeUnlockListeners. destruct (window_defined s); simpl; by destruct s.
Qed.

Lemma report_progress_frame s :
  report_progress s = set_emitted (emitted (report_progress s)) s.
Proof.
  assert (∃ em, report_progress s = set_emitted em s) as [em Hem].
  { unfold report_progress.
    apply (foldl_preserves (λ s', ∃ em, s' = set_emitted em s)).
    - exists (emitted s). by destruct s.
    - intros s' [idx h] [em ->]. simpl.
      destruct (audioElements s !! h) as [a|]; [|by eexists].
      destruct (negb (paused a) && truthy_number (duration a));
        by eexists. }
  by rewrite Hem.
Qed.

Lemma release_all_eq hs s :
  release_all hs s = set_audioElements (released hs (audioElements s)) s.
Proof.
  revert s. induction hs as [|h hs IH]; intros s; simpl.
  - by destruct s.
  - change (release_all hs (pause_and_release h s)
            = set_audioElements
                (released hs (alter (with_src "") h
                   (alter (with_paused true) h (audioElements s)))) s).
    by rewrite IH.
Qed.

Lemma lookup_released hs m h :
  released hs m !! h
  = if decide (h ∈ hs) then torn_down <$> m !! h else m !! h.
Proof.
  revert m. induction hs as [|h' hs IH]; intros m.
  - rewrite decide_False; [done|set_solver].
  - change (released (h' :: hs) m)
      with (released hs (alter (with_src "") h' (alter (with_paused true) h' m))).
    rewrite IH.
    destruct (decide (h' = h)) as [->|Hne].
    + rewrite !lookup_alter_eq, (decide_True (P := h ∈ h :: hs)); [|set_solver].
      destruct (m !! h) as [a|]; simpl; by repeat case_decide.
    + rewrite !lookup_alter_ne by done.
      destruct (decide (h ∈ hs)).
      * rewrite decide_True; [done|set_solver].
      * rewrite decide_False; [done|].
        apply not_elem_of_cons. split; [congruence|done].
Qed.

Lemma elem_of_map_values {K} `{Countable K} (m : gmap K nat) h :
  h ∈ (map_to_list m).*2 ↔ ∃ k, m !! k = Some h.
Proof.
  rewrite list_elem_of_fmap. split.
  - intros [[k h'] [-> Hin]]. exists k. by apply elem_of_map_to_list.
  - intros [k Hk]. exists (k, h). split; [done|]. by apply elem_of_map_to_list.
Qed.

(** ** The store stays well formed *)

Create HintDb inv.

Lemma Wf_frame s s' :
  audioElements s' = audioElements s → allocated s' = allocated s →
  ambientAudios s' = ambientAudios s → presetAudios s' = presetAudios s →
  ttsAudio s' = ttsAudio s →
  Wf s → Wf s'.
Proof.
  intros He Ha Hamb Hpre Htts [W1 W2 W3 W4 W5 W6 W7].
  constructor; rewrite ?He, ?Ha, ?Hamb, ?Hpre, ?Htts; auto.
Qed.

Lemma cosmetic_live_ambient f a : cosmetic f → live_ambient (f a) ↔ live_ambient a.
Proof.
  intros Hf. destruct (Hf a) as (Hs & Hl & _). unfold live_ambient, live.
  by rewrite Hs, Hl.
Qed.

Lemma Wf_cosmetic h f s : cosmetic f → Wf s → Wf (update_element h f s).
Proof.
  intros Hf [W1 W2 W3 W4 W5 W6 W7].
  constructor; unfold update_element; simpl; auto.
  - intros h0 Hh0. apply W1. by apply lookup_alter_is_Some in Hh0.
  - intros id h0 Hid. destruct (W2 _ _ Hid) as (a & Ha & Hlive).
    rewrite lookup_alter. case_decide; subst; rewrite Ha; simpl; eauto.
    eexists; split; [done|]. by apply cosmetic_live_ambient.
  - intros h0 a. rewrite lookup_alter.
    case_decide; subst; [|by apply W3].
    destruct (audioElements s !! h0) as [a0|] eqn:Ha0; simpl; [|done].
    intros [= <-] Hlive. apply (W3 h0 a0 Ha0). by eapply cosmetic_live_ambient.
  - intros idx h0 Hidx. destruct (W5 _ _ Hidx) as (a & Ha & Hl & Hs & He & Ho).
    rewrite lookup_alter. case_decide; subst; rewrite Ha; simpl;
      [|by exists a].
    destruct (Hf a) as (? & ? & ? & ?). unfold live in *.
    eexists; repeat split; [congruence..].
  - intros h0 a idx h'. rewrite lookup_alter.
    case_decide; subst; [|by apply W6].
    destruct (audioElements s !! h0) as [a0|] eqn:Ha0; simpl; [|done].
    destruct (Hf a0) as (? & ? & ? & ?). unfold live in *.
    intros [= <-] Ho Hs He. apply (W6 h0 a0); congruence.
  - intros h0 Htts. destruct (W7 _ Htts) as (a & url & Ha & Hl & Ho).
    rewrite lookup_alter. case_decide; subst; rewrite Ha; simpl; eauto.
    destruct (Hf a) as (? & ? & ? & ?).
    eexists _, url; split; [done|split; congruence].
Qed.

Lemma cosmetic_volume v : cosmetic (with_volume v).
Proof. by intros []. Qed.

Lemma cosmetic_paused v : cosmetic (with_paused v).
Proof. by intros []. Qed.

Lemma cosmetic_currentTime v : cosmetic (with_currentTime v).
Proof. by intros []. Qed.

Lemma cosmetic_duration v : cosmetic (with_duration v).
Proof. by intros []. Qed.

#[local] Hint Resolve cosmetic_volume cosmetic_paused cosmetic_currentTime
  cosmetic_duration Wf_cosmetic : inv.

(** Tearing down the elements [hs] and dropping exactly the slots that held
    them. *)
Lemma Wf_release (hs : list nat) s s' :
  (∀ h, audioElements s' !! h
        = if decide (h ∈ hs) then torn_down <$> audioElements s !! h
          else audioElements s !! h) →
  allocated s' = allocated s →
  (∀ id h, ambientAudios s !! id = Some h →
     ambientAudios s' !! id = if decide (h ∈ hs) then None else Some h) →
  (∀ id, ambientAudios s !! id = None → ambientAudios s' !! id = None) →
  (∀ idx h, presetAudios s !! idx = Some h →
     presetAudios s' !! idx = if decide (h ∈ hs) then None else Some h) →
  (∀ idx, presetAudios s !! idx = None → presetAudios s' !! idx = None) →
  (ttsAudio s' = ttsAudio s ∨ ttsAudio s' = None) →
  Wf s → Wf s'.
Proof.
  intros He Hn Hamb Hamb0 Hpre Hpre0 Htts [W1 W2 W3 W4 W5 W6 W7].
  assert (Hamb_inv : ∀ id h, ambientAudios s' !! id = Some h →
            ambientAudios s !! id = Some h ∧ h ∉ hs).
  { intros id h Hid. destruct (ambientAudios s !! id) as [h0|] eqn:Hold.
    - rewrite (Hamb _ _ Hold) in Hid.
      destruct (decide (h0 ∈ hs)); [done|]. by injection Hid as ->.
    - rewrite (Hamb0 _ Hold) in Hid. done. }
  assert (Hpre_inv : ∀ idx h, presetAudios s' !! idx = Some h →
            presetAudios s !! idx = Some h ∧ h ∉ hs).
  { intros idx h Hidx. destruct (presetAudios s !! idx) as [h0|] eqn:Hold.
    - rewrite (Hpre _ _ Hold) in Hidx.
      destruct (decide (h0 ∈ hs)); [done|]. by injection Hidx as ->.
    - rewrite (Hpre0 _ Hold) in Hidx. done. }
  assert (Hlive : ∀ h a, audioElements s' !! h = Some a → live a →
            audioElements s !! h = Some a ∧ h ∉ hs).
  { intros h a. rewrite He. case_decide; [|done].
    destruct (audioElements s !! h); simpl; [|done].
    intros [= <-]. by unfold live. }
  constructor.
  - intros h. rewrite He, Hn. case_decide; [|by apply W1].
    rewrite fmap_is_Some. apply W1.
  - intros id h [Hid Hh]%Hamb_inv. destruct (W2 _ _ Hid) as (a & Ha & Hl).
    exists a. rewrite He, decide_False by done. done.
  - intros h a Ha [Hloop Hsrc]. destruct (Hlive _ _ Ha Hsrc) as [Ha' Hh].
    destruct (W3 _ _ Ha' (conj Hloop Hsrc)) as [id Hid].
    exists id. rewrite (Hamb _ _ Hid), decide_False by done. done.
  - intros id1 id2 h [H1 _]%Hamb_inv [H2 _]%Hamb_inv. eauto.
  - intros idx h [Hidx Hh]%Hpre_inv. destruct (W5 _ _ Hidx) as (a & Ha & Hrest).
    exists a. rewrite He, decide_False by done. done.
  - intros h a idx h' Ha Ho Hsrc Hend. destruct (Hlive _ _ Ha Hsrc) as [Ha' Hh].
    destruct (W6 _ _ _ _ Ha' Ho Hsrc Hend) as [-> Hidx]. split; [done|].
    rewrite (Hpre _ _ Hidx), decide_False by done. done.
  - intros h Hh. destruct Htts as [Htts|Htts]; [|congruence].
    rewrite Htts in Hh. destruct (W7 _ Hh) as (a & url & Ha & Hl & Ho).
    rewrite He, Ha. case_decide; simpl; eauto.
Qed.

Lemma routeThroughMaster_frame h s :
  routeThroughMaster h s = set_routed (routed (routeThroughMaster h s)) s.
Proof.
  unfold routeThroughMaster.
  destruct (audioCtx s), (masterGain s); simpl; by destruct s.
Qed.

Lemma start_ambient_elements id f v s :
  audioElements (start_ambient id f v s)
  = <[allocated s := mkAudio (BACKOFFICE_URL +:+ "/sounds/" +:+ f) true
                       (default 0.5%Q v) false 0%Q None false None]>
      (audioElements s).
Proof.
  unfold start_ambient, construct_Audio, play, update_element.
  rewrite routeThroughMaster_frame. simpl.
  by rewrite !alter_insert_eq.
Qed.

Lemma fresh_absent s : Wf s → audioElements s !! allocated s = None.
Proof.
  intros W. destruct (audioElements s !! allocated s) eqn:E; [|done].
  assert (allocated s < allocated s) by (apply (wf_fresh _ W); eauto). lia.
Qed.

(** A fresh element enters the store together with the slot that owns
    it. *)
Section alloc.
Variables (s s' : State) (a : Audio).
Hypothesis HWf : Wf s.
Hypothesis Hels : audioElements s' = <[allocated s := a]> (audioElements s).
Hypothesis Hn : allocated s' = S (allocated s).

Lemma Wf_alloc_ambient id :
  live_ambient a → onended a = None →
  ambientAudios s !! id = None →
  ambientAudios s' = <[id := allocated s]> (ambientAudios s) →
  presetAudios s' = presetAudios s → ttsAudio s' = ttsAudio s →
  Wf s'.
Proof.
  intros Hlive Ho Hid Hamb Hpre Htts.
  pose proof (fresh_absent s HWf) as Hfresh.
  destruct HWf as [W1 W2 W3 W4 W5 W6 W7].
  constructor; rewrite ?Hels, ?Hn, ?Hamb, ?Hpre, ?Htts.
  - intros h. rewrite lookup_insert_is_Some'. intros [->|Hh]; [lia|].
    apply W1 in Hh. lia.
  - intros id' h. rewrite lookup_insert_Some.
    intros [[-> <-]|[Hne Hid']].
    + exists a. by rewrite lookup_insert_eq.
    + destruct (W2 _ _ Hid') as (a' & Ha' & Hl'). exists a'.
      rewrite lookup_insert_ne; [done|]. intros <-. congruence.
  - intros h a'. rewrite lookup_insert_Some.
    intros [[<- <-]|[Hne Ha']] Hl'.
    + exists id. by rewrite lookup_insert_eq.
    + destruct (W3 _ _ Ha' Hl') as [id' Hid']. exists id'.
      rewrite lookup_insert_ne; [done|]. intros <-. congruence.
  - intros id1 id2 h. rewrite !lookup_insert_Some.
    intros [[<- <-]|[Hne1 H1]] [[<- Heq]|[Hne2 H2]]; eauto.
    + destruct (W2 _ _ H2) as (a' & Ha' & _). congruence.
    + destruct (W2 _ _ H1) as (a' & Ha' & _). congruence.
  - intros idx h Hidx. destruct (W5 _ _ Hidx) as (a' & Ha' & Hrest).
    exists a'. rewrite lookup_insert_ne; [done|]. intros <-. congruence.
  - intros h a' idx h'. rewrite lookup_insert_Some.
    intros [[<- <-]|[Hne Ha']]; [congruence|]. by apply W6.
  - intros h Hh. destruct (W7 _ Hh) as (a' & url & Ha' & Hrest).
    exists a', url. rewrite lookup_insert_ne; [done|]. intros <-. congruence.
Qed.

Lemma Wf_alloc_preset idx :
  loop a = false → live a → ended a = false →
  onended a = Some (PresetEnded idx (allocated s)) →
  presetAudios s !! idx = None →
  presetAudios s' = <[idx := allocated s]> (presetAudios s) →
  ambientAudios s' = ambientAudios s → ttsAudio s' = ttsAudio s →
  Wf s'.
Proof.
  intros Hloop Hlive Hend Ho Hidx Hpre Hamb Htts.
  pose proof (fresh_absent s HWf) as Hfresh.
  destruct HWf as [W1 W2 W3 W4 W5 W6 W7].
  constructor; rewrite ?Hels, ?Hn, ?Hamb, ?Hpre, ?Htts.
  - intros h. rewrite lookup_insert_is_Some'. intros [->|Hh]; [lia|].
    apply W1 in Hh. lia.
  - intros id' h Hid'. destruct (W2 _ _ Hid') as (a' & Ha' & Hl'). exists a'.
    rewrite lookup_insert_ne; [done|]. intros <-. congruence.
  - intros h a'. rewrite lookup_insert_Some.
    intros [[<- <-]|[Hne Ha']] Hl'; [|by eapply W3].
    destruct Hl'. congruence.
  - done.
  - intros idx' h. rewrite lookup_insert_Some.
    intros [[<- <-]|[Hne Hidx']].
    + exists a. by rewrite lookup_insert_eq.
    + destruct (W5 _ _ Hidx') as (a' & Ha' & Hrest). exists a'.
      rewrite lookup_insert_ne; [done|]. intros <-. congruence.
  - intros h a' idx' h'. rewrite lookup_insert_Some.
    intros [[<- <-]|[Hne Ha']] Ho' Hl' He'.
    + rewrite Ho in Ho'. injection Ho' as <- <-.
      by rewrite lookup_insert_eq.
    + destruct (W6 _ _ _ _ Ha' Ho' Hl' He') as [-> Hp]. split; [done|].
      rewrite lookup_insert_ne; [done|]. intros <-. congruence.
  - intros h Hh. destruct (W7 _ Hh) as (a' & url & Ha' & Hrest).
    exists a', url. rewrite lookup_insert_ne; [done|]. intros <-. congruence.
Qed.

Lemma Wf_alloc_tts url :
  loop a = false → onended a = Some (TtsEnded url) →
  ttsAudio s' = Some (allocated s) →
  ambientAudios s' = ambientAudios s → presetAudios s' = presetAudios s →
  Wf s'.
Proof.
  intros Hloop Ho Htts Hamb Hpre.
  pose proof (fresh_absent s HWf) as Hfresh.
  destruct HWf as [W1 W2 W3 W4 W5 W6 W7].
  constructor; rewrite ?Hels, ?Hn, ?Hamb, ?Hpre, ?Htts.
  - intros h. rewrite lookup_insert_is_Some'. intros [->|Hh]; [lia|].
    apply W1 in Hh. lia.
  - intros id' h Hid'. destruct (W2 _ _ Hid') as (a' & Ha' & Hl'). exists a'.
    rewrite lookup_insert_ne; [done|]. intros <-. congruence.
  - intros h a'. rewrite lookup_insert_Some.
    intros [[<- <-]|[Hne Ha']] Hl'; [|by eapply W3].
    destruct Hl'. congruence.
  - done.
  - intros idx' h Hidx'.
    destruct (W5 _ _ Hidx') as (a' & Ha' & Hrest). exists a'.
    rewrite lookup_insert_ne; [done|]. intros <-. congruence.
  - intros h a' idx' h'. rewrite lookup_insert_Some.
    intros [[<- <-]|[Hne Ha']]; [congruence|]. by apply W6.
  - intros h [= <-]. exists a, url. by rewrite lookup_insert_eq.
Qed.
End alloc.

(** The three owners never share an element. *)
Lemma ambient_not_preset s id idx h h' :
  Wf s → ambientAudios s !! id = Some h → presetAudios s !! idx = Some h' →
  h ≠ h'.
Proof.
  intros W Hid Hidx ->.
  destruct (wf_ambient _ W _ _ Hid) as (a & Ha & Hloop & _).
  destruct (wf_preset _ W _ _ Hidx) as (a' & Ha' & Hloop' & _). congruence.
Qed.

Lemma ambient_not_tts s id h h' :
  Wf s → ambientAudios s !! id = Some h → ttsAudio s = Some h' → h ≠ h'.
Proof.
  intros W Hid Htts ->.
  destruct (wf_ambient _ W _ _ Hid) as (a & Ha & Hloop & _).
  destruct (wf_tts _ W _ Htts) as (a' & url & Ha' & Hloop' & _). congruence.
Qed.

Lemma preset_not_tts s idx h h' :
  Wf s → presetAudios s !! idx = Some h → ttsAudio s = Some h' → h ≠ h'.
Proof.
  intros W Hidx Htts ->.
  destruct (wf_preset _ W _ _ Hidx) as (a & Ha & _ & _ & _ & Ho).
  destruct (wf_tts _ W _ Htts) as (a' & url & Ha' & _ & Ho'). congruence.
Qed.

Lemma preset_inj s idx1 idx2 h :
  Wf s → presetAudios s !! idx1 = Some h → presetAudios s !! idx2 = Some h →
  idx1 = idx2.
Proof.
  intros W H1 H2.
  destruct (wf_preset _ W _ _ H1) as (a & Ha & _ & _ & _ & Ho).
  destruct (wf_preset _ W _ _ H2) as (a' & Ha' & _ & _ & _ & Ho'). congruence.
Qed.

Lemma lookup_pause_and_release h s h0 :
  audioElements (pause_and_release h s) !! h0
  = if decide (h0 ∈ [h]) then torn_down <$> audioElements s !! h0
    else audioElements s !! h0.
Proof.
  unfold pause_and_release, pause, update_element. simpl.
  destruct (decide (h0 ∈ [h])) as [->%list_elem_of_singleton|Hne].
  - rewrite !lookup_alter_eq. by destruct (audioElements s !! h).
  - rewrite !lookup_alter_ne; [done|set_solver..].
Qed.

Lemma Wf_on_stop_ambient id s : Wf s → Wf (on_stop_ambient id s).
Proof.
  intros W. unfold on_stop_ambient.
  destruct (ambientAudios s !! id) as [h|] eqn:Hid; [|done].
  apply (Wf_release [h] s); simpl; auto.
  - apply lookup_pause_and_release.
  - intros id' h' Hid'. destruct (decide (id = id')) as [<-|Hne].
    + rewrite lookup_delete_eq, decide_True; [done|]. set_solver.
    + rewrite lookup_delete_ne, decide_False; [done| |done].
      intros ->%list_elem_of_singleton. by pose proof (wf_ambient_inj _ W _ _ _ Hid Hid').
  - intros id' Hid'. rewrite lookup_delete_None. auto.
  - intros idx h' Hidx. rewrite decide_False; [done|].
    intros ->%list_elem_of_singleton. by eapply ambient_not_preset.
Qed.

Lemma Wf_on_stop_preset idx s : Wf s → Wf (on_stop_preset idx s).
Proof.
  intros W. unfold on_stop_preset.
  destruct (presetAudios s !! idx) as [h|] eqn:Hidx; [|done].
  apply (Wf_release [h] s); simpl; auto.
  - apply lookup_pause_and_release.
  - intros id h' Hid. rewrite decide_False; [done|].
    intros ->%list_elem_of_singleton. by eapply ambient_not_preset.
  - intros idx' h' Hidx'. destruct (decide (idx = idx')) as [<-|Hne].
    + rewrite lookup_delete_eq, decide_True; [done|]. set_solver.
    + rewrite lookup_delete_ne, decide_False; [done| |done].
      intros ->%list_elem_of_singleton. by pose proof (preset_inj _ _ _ _ W Hidx Hidx').
  - intros idx' Hidx'. rewrite lookup_delete_None. auto.
Qed.

Lemma Wf_release_ambients s :
  Wf s → Wf (set_ambientAudios ∅ (release_all (map_to_list (ambientAudios s)).*2 s)).
Proof.
  intros W.
  apply (Wf_release (map_to_list (ambientAudios s)).*2 s);
    rewrite ?release_all_eq; simpl; auto.
  - intros h. apply lookup_released.
  - intros id h Hid. rewrite decide_True; [done|].
    apply elem_of_map_values. eauto.
  - intros idx h Hidx. rewrite decide_False; [done|].
    intros [id Hid]%elem_of_map_values.
    by eapply ambient_not_preset.
Qed.

Lemma Wf_release_presets s :
  Wf s → Wf (set_presetAudios ∅ (release_all (map_to_list (presetAudios s)).*2 s)).
Proof.
  intros W.
  apply (Wf_release (map_to_list (presetAudios s)).*2 s);
    rewrite ?release_all_eq; simpl; auto.
  - intros h. apply lookup_released.
  - intros id h Hid. rewrite decide_False; [done|].
    intros [idx Hidx]%elem_of_map_values.
    by eapply ambient_not_preset.
  - intros idx h Hidx. rewrite decide_True; [done|].
    apply elem_of_map_values. eauto.
Qed.

Lemma Wf_release_tts s h keep :
  Wf s → ttsAudio s = Some h →
  Wf (set_ttsAudio (if keep : bool then Some h else None) (pause_and_release h s)).
Proof.
  intros W Htts.
  apply (Wf_release [h] s); simpl; auto.
  - apply lookup_pause_and_release.
  - intros id h' Hid. rewrite decide_False; [done|].
    intros ->%list_elem_of_singleton. by eapply ambient_not_tts.
  - intros idx h' Hidx. rewrite decide_False; [done|].
    intros ->%list_elem_of_singleton. by eapply preset_not_tts.
  - destruct keep; auto.
Qed.

Lemma stopAllAudio_frame s :
  ∃ els, stopAllAudio s
         = set_ttsAudio None (set_presetAudios ∅ (set_ambientAudios ∅
             (set_audioElements els s))).
Proof.
  unfold stopAllAudio. rewrite !release_all_eq.
  destruct s as [? ? ? ? ? ? ? ? ? ? [h|] ? ? ? ? ? ? ? ? ? ? ? ? ?]; simpl;
    eexists; reflexivity.
Qed.

Lemma Wf_stopAllAudio s : Wf s → Wf (stopAllAudio s).
Proof.
  intros W. unfold stopAllAudio.
  pose proof (Wf_release_ambients s W) as W1.
  set (s1 := set_ambientAudios ∅ _) in *.
  pose proof (Wf_release_presets s1 W1) as W2.
  set (s2 := set_presetAudios ∅ _) in *.
  cbv zeta. fold s1. fold s2.
  destruct (ttsAudio s2) as [h|] eqn:Htts; [|done].
  apply (Wf_release_tts s2 h false W2 Htts).
Qed.

Lemma start_after_release id f v s :
  start_ambient id f v (release_existing_ambient id s)
  = start_ambient id f v (on_stop_ambient id s).
Proof.
  unfold release_existing_ambient, on_stop_ambient.
  destruct (ambientAudios s !! id) as [h|]; [|done].
  unfold start_ambient, construct_Audio, play, update_element,
    routeThroughMaster, pause_and_release, pause, update_element.
  simpl. destruct (audioCtx s), (masterGain s); simpl;
    by rewrite insert_delete_eq.
Qed.

Lemma start_ambient_allocated id f v s :
  allocated (start_ambient id f v s) = S (allocated s).
Proof.
  unfold start_ambient, construct_Audio, play, update_element.
  by rewrite routeThroughMaster_frame.
Qed.

Lemma start_ambient_slots id f v s :
  ambientAudios (start_ambient id f v s) = <[id := allocated s]> (ambientAudios s)
  ∧ presetAudios (start_ambient id f v s) = presetAudios s
  ∧ ttsAudio (start_ambient id f v s) = ttsAudio s.
Proof.
  unfold start_ambient, construct_Audio, play, update_element.
  by rewrite routeThroughMaster_frame.
Qed.

Lemma Wf_start_ambient id f v s :
  Wf s → ambientAudios s !! id = None → Wf (start_ambient id f v s).
Proof.
  intros W Hid.
  destruct (start_ambient_slots id f v s) as (Hamb & Hpre & Htts).
  eapply (Wf_alloc_ambient s _ _ W (start_ambient_elements id f v s)
            (start_ambient_allocated id f v s) id); auto.
  split; [done|]. unfold live. simpl. discriminate.
Qed.

Lemma Wf_on_play_ambient id f v s : Wf s → Wf (on_play_ambient id f v s).
Proof.
  intros W. unfold on_play_ambient. destruct (gate_closed s); [done|].
  rewrite start_after_release. apply Wf_start_ambient.
  - by apply Wf_on_stop_ambient.
  - unfold on_stop_ambient.
    destruct (ambientAudios s !! id) eqn:Hid; [|done].
    simpl. apply lookup_delete_eq.
Qed.

Lemma resumable_Some s idx h :
  Wf s → presetAudios s !! idx = Some h → resumable idx s = Some h.
Proof.
  intros W Hidx. unfold resumable. rewrite Hidx.
  destruct (wf_preset _ W _ _ Hidx) as (a & -> & _ & Hlive & _).
  by rewrite decide_False.
Qed.

Lemma resumable_None s idx :
  Wf s → resumable idx s = None → presetAudios s !! idx = None.
Proof.
  intros W Hr. destruct (presetAudios s !! idx) as [h|] eqn:Hidx; [|done].
  by rewrite (resumable_Some _ _ _ W Hidx) in Hr.
Qed.

Lemma resumable_stored s idx h :
  resumable idx s = Some h → presetAudios s !! idx = Some h.
Proof.
  unfold resumable. destruct (presetAudios s !! idx) as [h'|]; [|done].
  destruct (audioElements s !! h') as [a|]; [|done].
  case_decide; naive_solver.
Qed.

Lemma Wf_on_play_preset idx f s : Wf s → Wf (on_play_preset idx f s).
Proof.
  intros W. unfold on_play_preset. destruct (gate_closed s); [done|].
  destruct (resumable idx s) as [h|] eqn:Hr.
  - unfold play. auto with inv.
  - apply resumable_None in Hr; [|done].
    unfold construct_Audio, play, update_element.
    rewrite routeThroughMaster_frame. simpl.
    eapply (Wf_alloc_preset s _ _ W) with (idx := idx); simpl;
      [by rewrite !alter_insert_eq|..]; done.
Qed.

Lemma Wf_on_play_tts b m s : Wf s → Wf (on_play_tts b m s).
Proof.
  intros W. unfold on_play_tts. destruct (gate_closed s); [done|].
  set (s1 := match ttsAudio s with
             | Some old => pause_and_release old s
             | None => s
             end).
  assert (W1 : Wf s1).
  { subst s1. destruct (ttsAudio s) as [old|] eqn:Htts; [|done].
    apply (Wf_frame (set_ttsAudio (Some old) (pause_and_release old s)));
      try done.
    apply (Wf_release_tts s old true W Htts). }
  unfold construct_Audio, play, update_element.
  rewrite routeThroughMaster_frame. simpl.
  eapply (Wf_alloc_tts s1 _ _ W1); simpl;
    [by rewrite !alter_insert_eq|..]; done.
Qed.

Lemma Wf_on_volume_ia v s : Wf s → Wf (on_volume_ia v s).
Proof.
  intros W. unfold on_volume_ia.
  set (s1 := foldl _ _ _).
  assert (W1 : Wf s1).
  { subst s1. apply foldl_preserves; [by apply (Wf_frame s)|].
    intros; auto with inv. }
  destruct (ttsAudio s1); auto with inv.
Qed.

Lemma Wf_audio_listener e s : Wf s → Wf (audio_listener e s).
Proof.
  intros W. destruct e; simpl; try done.
  - by apply Wf_on_play_ambient.
  - by apply Wf_on_stop_ambient.
  - unfold on_volume_ambient. destruct (ambientAudios s !! soundId); auto with inv.
  - by apply Wf_on_play_preset.
  - unfold on_pause_preset, pause. destruct (presetAudios s !! presetIdx); auto with inv.
  - unfold on_seek_preset. destruct (presetAudios s !! presetIdx); auto with inv.
  - by apply Wf_on_stop_preset.
  - by apply Wf_on_play_tts.
  - by apply Wf_on_volume_ia.
  - unfold on_master_volume. simpl. destruct (masterGain s); by apply (Wf_frame s).
  - by apply Wf_stopAllAudio.
Qed.

Lemma Wf_on_media_ended h s : Wf s → Wf (on_media_ended h s).
Proof.
  intros W. unfold on_media_ended.
  destruct (audioElements s !! h) as [a|] eqn:Ha; [|done].
  destruct (playing a && negb (loop a) && truthy_number (duration a)) eqn:Hg;
    [|done].
  apply andb_prop in Hg as [[Hplay Hloop]%andb_prop _].
  apply negb_true_iff in Hloop.
  unfold playing in Hplay.
  apply andb_prop in Hplay as [[_ Hsrc]%andb_prop Hend].
  apply negb_true_iff in Hend. apply negb_true_iff, bool_decide_eq_false in Hsrc.
  set (f := λ a', with_currentTime (default 0%Q (duration a)) (with_ended true a')).
  assert (Hels : ∀ s', audioElements s' = alter (with_currentTime (default 0%Q (duration a)))
                   h (alter (with_ended true) h (audioElements s)) →
            ∀ h0, audioElements s' !! h0
                  = if decide (h0 = h) then Some (f a) else audioElements s !! h0).
  { intros s' -> h0. case_decide as Hh0.
    - subst h0. by rewrite !lookup_alter_eq, Ha.
    - by rewrite !lookup_alter_ne. }
  assert (Hshape : src (f a) = src a ∧ loop (f a) = loop a ∧
                   onended (f a) = onended a ∧ ended (f a) = true) by done.
  destruct Hshape as (Hfs & Hfl & Hfo & Hfe). clearbody f.
  assert (Hamb : ∀ id, ambientAudios s !! id ≠ Some h).
  { intros id Hid. destruct (wf_ambient _ W _ _ Hid) as (a' & Ha' & Hl' & _).
    congruence. }
  destruct W as [W1 W2 W3 W4 W5 W6 W7].
  destruct (onended a) as [[idx h'|url]|] eqn:Ho.
  - destruct (W6 _ _ _ _ Ha Ho Hsrc Hend) as [-> Hidx].
    unfold preset_onended, emit, update_element. simpl.
    match goal with |- Wf ?s' => specialize (Hels s' eq_refl) end.
    constructor; simpl in *.
    + intros h0. rewrite Hels. case_decide; subst; eauto.
    + intros id h0 Hid. rewrite Hels. rewrite decide_False; [eauto|].
      intros ->. by eapply Hamb.
    + intros h0 a'. rewrite Hels. case_decide; subst; [|eauto].
      intros [= <-] [Hl' _]. congruence.
    + eauto.
    + intros idx' h0 [Hne Hidx']%lookup_delete_Some. rewrite Hels.
      rewrite decide_False; [eauto|]. intros ->.
      destruct (W5 _ _ Hidx) as (a1 & Ha1 & _ & _ & _ & Ho1).
      destruct (W5 _ _ Hidx') as (a2 & Ha2 & _ & _ & _ & Ho2). congruence.
    + intros h0 a' idx' h''. rewrite Hels. case_decide; subst.
      * intros [= <-]. congruence.
      * intros Ha' Ho' Hl' He'.
        destruct (W6 _ _ _ _ Ha' Ho' Hl' He') as [-> Hidx']. split; [done|].
        rewrite lookup_delete_ne; [done|]. intros ->. congruence.
    + intros h0 Htts. destruct (W7 _ Htts) as (a' & url & Ha' & Hl' & Ho').
      rewrite Hels. rewrite decide_False; [eauto|]. intros ->. congruence.
  - unfold tts_onended, update_element. simpl.
    match goal with |- Wf ?s' => specialize (Hels s' eq_refl) end.
    constructor; simpl in *.
    + intros h0. rewrite Hels. case_decide; subst; eauto.
    + intros id h0 Hid. rewrite Hels. rewrite decide_False; [eauto|].
      intros ->. by eapply Hamb.
    + intros h0 a'. rewrite Hels. case_decide; subst; [|eauto].
      intros [= <-] [Hl' _]. congruence.
    + eauto.
    + intros idx' h0 Hidx'. rewrite Hels.
      rewrite decide_False; [eauto|]. intros ->.
      destruct (W5 _ _ Hidx') as (a2 & Ha2 & _ & _ & _ & Ho2). congruence.
    + intros h0 a' idx' h''. rewrite Hels. case_decide; subst; [|eauto].
      intros [= <-]. congruence.
    + done.
  - unfold update_element. simpl.
    match goal with |- Wf ?s' => specialize (Hels s' eq_refl) end.
    constructor; simpl in *.
    + intros h0. rewrite Hels. case_decide; subst; eauto.
    + intros id h0 Hid. rewrite Hels. rewrite decide_False; [eauto|].
      intros ->. by eapply Hamb.
    + intros h0 a'. rewrite Hels. case_decide; subst; [|eauto].
      intros [= <-] [Hl' _]. congruence.
    + eauto.
    + intros idx' h0 Hidx'. rewrite Hels.
      rewrite decide_False; [eauto|]. intros ->.
      destruct (W5 _ _ Hidx') as (a2 & Ha2 & _ & _ & _ & Ho2). congruence.
    + intros h0 a' idx' h''. rewrite Hels. case_decide; subst; [|eauto].
      intros [= <-]. congruence.
    + intros h0 Htts. destruct (W7 _ Htts) as (a' & url & Ha' & Hl' & Ho').
      rewrite Hels. rewrite decide_False; [eauto|]. intros ->. congruence.
Qed.

(** ** The gate and the listeners *)

(** No audio listener touches the gate or the socket's listeners. *)
Lemma audio_listener_control e s :
  audioUnlocked (audio_listener e s) = audioUnlocked s
  ∧ audioConfig (audio_listener e s) = audioConfig s
  ∧ listeners (audio_listener e s) = listeners s.
Proof.
  destruct e; simpl; try done.
  - unfold on_play_ambient. destruct (gate_closed s); [done|].
    unfold start_ambient, construct_Audio, play, update_element.
    rewrite routeThroughMaster_frame. simpl.
    unfold release_existing_ambient. by destruct (ambientAudios s !! soundId).
  - unfold on_stop_ambient. by destruct (ambientAudios s !! soundId).
  - unfold on_volume_ambient. by destruct (ambientAudios s !! soundId).
  - unfold on_play_preset. destruct (gate_closed s); [done|].
    destruct (resumable presetIdx s); [done|].
    unfold construct_Audio, play, update_element.
    by rewrite routeThroughMaster_frame.
  - unfold on_pause_preset. by destruct (presetAudios s !! presetIdx).
  - unfold on_seek_preset. by destruct (presetAudios s !! presetIdx).
  - unfold on_stop_preset. by destruct (presetAudios s !! presetIdx).
  - unfold on_play_tts. destruct (gate_closed s); [done|].
    unfold construct_Audio, play, update_element.
    rewrite routeThroughMaster_frame. simpl. by destruct (ttsAudio s).
  - unfold on_volume_ia.
    set (s1 := foldl _ _ _).
    assert (audioUnlocked s1 = audioUnlocked s ∧ audioConfig s1 = audioConfig s
            ∧ listeners s1 = listeners s) as (H1 & H2 & H3).
    { subst s1. by apply foldl_preserves. }
    by destruct (ttsAudio s1).
  - unfold on_master_volume. simpl. by destruct (masterGain s).
  - unfold on_stop_all. destruct (stopAllAudio_frame s) as [els ->]. done.
Qed.

Lemma audio_listener_gate e s :
  gate_closed (audio_listener e s) = gate_closed s.
Proof.
  destruct (audio_listener_control e s) as (H1 & H2 & _).
  unfold gate_closed. by rewrite H1, H2.
Qed.

(** With nothing stored, an audio listener stores nothing unless the gate
    is open. *)
Lemma audio_listener_closed e s :
  gate_closed s = true →
  ambientAudios s = ∅ → presetAudios s = ∅ → ttsAudio s = None →
  ambientAudios (audio_listener e s) = ∅
  ∧ presetAudios (audio_listener e s) = ∅
  ∧ ttsAudio (audio_listener e s) = None.
Proof.
  intros Hg Hamb Hpre Htts. destruct e; simpl; try done.
  - unfold on_play_ambient. by rewrite Hg.
  - unfold on_stop_ambient. by rewrite Hamb, lookup_empty.
  - unfold on_volume_ambient. by rewrite Hamb, lookup_empty.
  - unfold on_play_preset. by rewrite Hg.
  - unfold on_pause_preset. by rewrite Hpre, lookup_empty.
  - unfold on_seek_preset. by rewrite Hpre, lookup_empty.
  - unfold on_stop_preset. by rewrite Hpre, lookup_empty.
  - unfold on_play_tts. by rewrite Hg.
  - unfold on_volume_ia. simpl. rewrite Hpre, map_to_list_empty. simpl.
    by rewrite Htts.
  - unfold on_master_volume. simpl. by destruct (masterGain s).
  - unfold on_stop_all. destruct (stopAllAudio_frame s) as [els ->]. done.
Qed.

Lemma Inv_audio_listener e s : Inv s → Inv (audio_listener e s).
Proof.
  intros [W G L]. constructor.
  - by apply Wf_audio_listener.
  - rewrite audio_listener_gate. intros Hg.
    destruct (G Hg) as (? & ? & ?). by apply audio_listener_closed.
  - intros e' He'. unfold listeners_of.
    destruct (audio_listener_control e s) as (_ & _ & ->). by apply L.
Qed.

Lemma deliver_audio e s :
  Inv s → is_audio_event e = true → deliver e s = audio_listener e s.
Proof.
  intros I He. unfold deliver. by rewrite (inv_listeners _ I e He).
Qed.

(** Changes the invariant does not read. *)
Lemma Inv_frame s s' :
  audioElements s' = audioElements s → allocated s' = allocated s →
  ambientAudios s' = ambientAudios s → presetAudios s' = presetAudios s →
  ttsAudio s' = ttsAudio s →
  (gate_closed s' = true → gate_closed s = true) →
  (∀ e, is_audio_event e = true →
     listeners_of (event_name e) s' = listeners_of (event_name e) s) →
  Inv s → Inv s'.
Proof.
  intros He Ha Hamb Hpre Htts Hg Hl [W G L]. constructor.
  - by apply (Wf_frame s).
  - rewrite Hamb, Hpre, Htts. auto.
  - intros e He'. rewrite Hl; auto.
Qed.

Lemma listeners_of_socket_on name l s n :
  listeners_of n (socket_on name l s)
  = if decide (name = n) then listeners_of n s ++ [l] else listeners_of n s.
Proof.
  unfold listeners_of, socket_on. simpl. rewrite lookup_insert.
  by case_decide; subst.
Qed.

Lemma listeners_of_socket_off_all name s n :
  listeners_of n (socket_off_all name s)
  = if decide (name = n) then [] else listeners_of n s.
Proof.
  unfold listeners_of, socket_off_all. simpl. rewrite lookup_delete.
  by case_decide.
Qed.

Lemma listeners_of_socket_off name l s n :
  listeners_of n (socket_off name l s)
  = if decide (name = n) then remove_first l (listeners_of n s)
    else listeners_of n s.
Proof.
  unfold listeners_of, socket_off.
  destruct (listeners s !! name) as [ls|] eqn:Hls.
  - destruct (remove_first l ls) as [|x ls'] eqn:Hrm; simpl.
    + rewrite lookup_delete. case_decide; subst; [|done].
      by rewrite Hls.
    + rewrite lookup_insert. case_decide; subst; [|done].
      by rewrite Hls.
  - case_decide; subst; [|done]. by rewrite Hls.
Qed.

Lemma audio_event_name e :
  is_audio_event e = true →
  "connect" ≠ event_name e ∧ "disconnect" ≠ event_name e
  ∧ "command" ≠ event_name e ∧ "game-message" ≠ event_name e.
Proof. by destruct e. Qed.

Lemma audio_listener_other e s : is_audio_event e = false → audio_listener e s = s.
Proof. by destruct e. Qed.

Lemma Inv_on_connect s : Inv s → Inv (on_connect s).
Proof.
  apply Inv_frame; unfold on_connect;
    destruct (registeredData s); simpl;
    repeat case_bool_decide; simpl;
    destruct (audioUnlocked s && enabled (audioConfig s)); simpl; done.
Qed.

Lemma Inv_run_listener l e s :
  is_audio_event e = false → Inv s → Inv (run_listener l e s).
Proof.
  intros He I. destruct l; simpl.
  - by rewrite audio_listener_other.
  - by apply Inv_on_connect.
  - done.
  - destruct e; try done. by apply (Inv_frame s).
  - by apply (Inv_frame s).
Qed.

Lemma Inv_deliver e s : Inv s → Inv (deliver e s).
Proof.
  intros I. destruct (is_audio_event e) eqn:He.
  - rewrite deliver_audio by done. by apply Inv_audio_listener.
  - unfold deliver. apply foldl_preserves; [done|].
    intros. by apply Inv_run_listener.
Qed.

Lemma Inv_stopAllAudio s :
  Wf s →
  (∀ e, is_audio_event e = true → listeners_of (event_name e) s = [AudioListener]) →
  Inv (stopAllAudio s).
Proof.
  intros W L. constructor.
  - by apply Wf_stopAllAudio.
  - by destruct (stopAllAudio_frame s) as [els ->].
  - destruct (stopAllAudio_frame s) as [els ->]. apply L.
Qed.

Lemma Inv_stopProgressReporting s : Inv s → Inv (stopProgressReporting s).
Proof.
  unfold stopProgressReporting. destruct (progressInterval s); [|done].
  by apply Inv_frame.
Qed.

Lemma Inv_startProgressReporting s : Inv s → Inv (startProgressReporting s).
Proof.
  unfold startProgressReporting. destruct (progressInterval s); [done|].
  by apply Inv_frame.
Qed.

Lemma Inv_addUnlockListeners s : Inv s → Inv (addUnlockListeners s).
Proof. rewrite addUnlockListeners_frame. by apply Inv_frame. Qed.

Lemma Inv_removeUnlockListeners s : Inv s → Inv (removeUnlockListeners s).
Proof. rewrite removeUnlockListeners_frame. by apply Inv_frame. Qed.

Lemma Inv_doUnlockAudio s : Inv s → Inv (doUnlockAudio s).
Proof.
  intros I. unfold doUnlockAudio.
  destruct (audioUnlocked s || negb (enabled (audioConfig s))) eqn:Hg; [done|].
  apply Inv_removeUnlockListeners, Inv_startProgressReporting.
  apply orb_false_elim in Hg as [Hu He].
  assert (Hclosed : gate_closed s = true) by (unfold gate_closed; by rewrite Hu).
  destruct (inv_gate _ I Hclosed) as (Hamb & Hpre & Htts).
  destruct I as [W G L].
  unfold initAudioContext, emit. constructor.
  - apply (Wf_frame s); destruct (audioCtx s); done.
  - destruct (audioCtx s); done.
  - intros e He'. rewrite <- (L e He'). unfold listeners_of.
    destruct (audioCtx s); done.
Qed.

Lemma socket_off_frame name l s :
  socket_off name l s = set_listeners (listeners (socket_off name l s)) s.
Proof.
  unfold socket_off. destruct (listeners s !! name) as [ls|];
    [destruct (remove_first l ls)|]; by destruct s.
Qed.

Lemma Inv_api c s : Inv s → Inv (api c s).
Proof.
  intros I. destruct c; simpl.
  - by apply (Inv_frame s).
  - apply (Inv_frame s); try done. intros e He. unfold api_onCommand.
    destruct (audio_event_name e He) as (_ & _ & Hn & _).
    by rewrite listeners_of_socket_on, listeners_of_socket_off_all,
      !decide_False.
  - by apply (Inv_frame s).
  - by apply (Inv_frame s).
  - by apply (Inv_frame s).
  - by apply (Inv_frame s).
  - apply (Inv_frame s); try done. intros e He. unfold api_onMessage.
    destruct (audio_event_name e He) as (_ & _ & _ & Hn).
    by rewrite listeners_of_socket_on, listeners_of_socket_off_all,
      !decide_False.
  - apply (Inv_frame s); [..|done]; unfold api_onConnect;
      try (unfold socket_on; rewrite socket_off_frame; done).
    intros e He. destruct (audio_event_name e He) as (Hn & _).
    by rewrite listeners_of_socket_on, listeners_of_socket_off, !decide_False.
  - apply (Inv_frame s); [..|done]; unfold api_onDisconnect;
      try (unfold socket_on; rewrite socket_off_frame; done).
    intros e He. destruct (audio_event_name e He) as (_ & Hn & _).
    by rewrite listeners_of_socket_on, listeners_of_socket_off, !decide_False.
  - unfold api_configureAudio.
    set (s1 := set_audioConfig _ s).
    set (s2 := if rearm_condition config s1 then addUnlockListeners s1 else s1).
    assert (H2 : audioElements s2 = audioElements s ∧ allocated s2 = allocated s
                 ∧ ambientAudios s2 = ambientAudios s
                 ∧ presetAudios s2 = presetAudios s ∧ ttsAudio s2 = ttsAudio s
                 ∧ listeners s2 = listeners s
                 ∧ audioUnlocked s2 = audioUnlocked s
                 ∧ audioConfig s2 = merge_config (audioConfig s) config).
    { subst s2. destruct (rearm_condition config s1); [|done].
      by rewrite addUnlockListeners_frame. }
    destruct H2 as (He & Ha & Hamb & Hpre & Htts & Hl & Hu & Hc).
    destruct I as [W G L].
    case_bool_decide as Hen.
    + apply Inv_stopProgressReporting, Inv_stopAllAudio.
      * by apply (Wf_frame s).
      * intros e He'. unfold listeners_of. rewrite Hl. by apply L.
    + apply (Inv_frame s); try done.
      * unfold gate_closed. rewrite Hu, Hc. simpl.
        destruct (partial_enabled config) as [[]|]; simpl; [|done..].
        rewrite orb_false_r. by intros ->.
      * intros e He'. unfold listeners_of. by rewrite Hl.
  - unfold api_unlockAudio. destruct (audioUnlocked s); [done|].
    destruct (negb (enabled (audioConfig s))); [done|].
    by apply Inv_doUnlockAudio.
  - unfold api_disableAudio. destruct I as [W G L].
    apply Inv_stopProgressReporting, Inv_stopAllAudio.
    + by apply (Wf_frame s).
    + done.
  - unfold api_enableAudio. simpl.
    assert (I1 : Inv (set_audioConfig (set_enabled true (audioConfig s)) s)).
    { apply (Inv_frame s); try done. unfold gate_closed. simpl.
      rewrite orb_false_r. by intros ->. }
    destruct (audioUnlocked s); [|done].
    apply Inv_startProgressReporting. revert I1. by apply Inv_frame.
Qed.

Lemma Inv_update_cosmetic h f s : cosmetic f → Inv s → Inv (update_element h f s).
Proof.
  intros Hf [W G L]. constructor; [by apply Wf_cosmetic|done..].
Qed.

Lemma Inv_on_media_ended h s : Inv s → Inv (on_media_ended h s).
Proof.
  intros I. pose proof (Wf_on_media_ended h s (inv_wf _ I)) as W.
  destruct I as [_ G L]. revert W. unfold on_media_ended.
  destruct (audioElements s !! h) as [a|]; [|by constructor].
  destruct (playing a && negb (loop a) && truthy_number (duration a));
    [|by constructor].
  destruct (onended a) as [[idx h'|url]|]; intros W; constructor; try done.
  - simpl. intros Hg. destruct (G Hg) as (-> & -> & ->).
    by rewrite delete_empty.
  - simpl. intros Hg. by destruct (G Hg) as (-> & -> & _).
Qed.

Lemma Inv_browser e s : Inv s → Inv (browser e s).
Proof.
  intros I. destruct e; simpl.
  - unfold on_gesture. case_bool_decide; [|done].
    apply Inv_doUnlockAudio. by apply (Inv_frame s).
  - destruct (progressInterval s); [|done].
    rewrite report_progress_frame. by apply (Inv_frame s).
  - destruct (pendingTimeouts s); [done|]. by apply (Inv_frame s).
  - destruct (audioElements s !! h); [|done]. case_bool_decide; [done|].
    apply Inv_update_cosmetic; auto with inv.
  - destruct (audioElements s !! h) as [a|]; [|done].
    destruct (playing a); [|done]. apply Inv_update_cosmetic; auto with inv.
  - apply Inv_update_cosmetic; auto with inv.
  - by apply Inv_on_media_ended.
Qed.

Lemma Inv_step e s : Inv s → Inv (step e s).
Proof.
  destruct e; simpl; [apply Inv_deliver|apply Inv_api|apply Inv_browser].
Qed.

Lemma Inv_loaded : Inv loaded.
Proof.
  constructor.
  - constructor; try done.
    intros h [a Ha]. by vm_compute in Ha.
  - done.
  - intros e He. by destruct e.
Qed.

Lemma reachable_Inv s : reachable s → Inv s.
Proof. induction 1; [apply Inv_loaded|by apply Inv_step]. Qed.

(** * The claims *)

(** ** Resuming a preset *)




(** The scenario of the specification: play, pause, seek to 30, play again
    with another file. *)
Example resume_after_seek :
  let s := run [from_browser (gesture click);
                from_socket (audio_play_preset 0 "a.mp3");
                from_socket (audio_pause_preset 0);
                from_socket (audio_seek_preset 0 30%Q);
                from_socket (audio_play_preset 0 "b.mp3")] loaded in
  audioElements s !! 0
  = Some (mkAudio "http://192.168.10.1:3000/presets/a.mp3" false 1%Q false
            30%Q None false (Some (PresetEnded 0 0)))
  ∧ allocated s = 1.
Proof. by vm_compute. Qed.

(** Every element referenced by a slot or by the speech clip is torn down
    by [stopAllAudio]; the others are left alone. *)
Lemma referenced_handles s h :
  h ∈ referenced s
  ↔ (∃ id, ambientAudios s !! id = Some h)
    ∨ (∃ idx, presetAudios s !! idx = Some h) ∨ ttsAudio s = Some h.
Proof.
  unfold referenced. rewrite !elem_of_app, !elem_of_map_values.
  destruct (ttsAudio s) as [h'|]; simpl.
  - rewrite list_elem_of_singleton. intuition congruence.
  - rewrite elem_of_nil. intuition congruence.
Qed.

Lemma torn_down_idemp a : torn_down (torn_down a) = torn_down a.
Proof. by destruct a. Qed.

Lemma stopAllAudio_eq s :
  stopAllAudio s
  = set_ttsAudio None (set_presetAudios ∅ (set_ambientAudios ∅
      (set_audioElements (released (referenced s) (audioElements s)) s))).
Proof.
  unfold stopAllAudio, referenced. rewrite !release_all_eq.
  destruct s as [? ? ? ? ? ? ? ? amb pre [h|] ? ? ? ? ? ? ? ? ? ? ? ? ?];
    unfold released; rewrite !foldl_app; reflexivity.
Qed.

Lemma stopAllAudio_elements s h :
  audioElements (stopAllAudio s) !! h
  = if decide (h ∈ referenced s) then torn_down <$> audioElements s !! h
    else audioElements s !! h.
Proof. rewrite stopAllAudio_eq. apply lookup_released. Qed.

(** ** The gate *)



(** ** Replacing an ambient sound *)






(** ** Natural end of a preset *)

(** C4.  When the element of a preset slot reaches its end while playing,
    exactly one event is emitted, a progress report for that slot with
    currentTime and duration both equal to the clip's duration and
    ended: true, and the slot is empty afterwards; the other slots are
    untouched. *)
Theorem preset_end_reports_once s idx h a d :
  reachable s →
  presetAudios s !! idx = Some h →
  audioElements s !! h = Some a →
  paused a = false → duration a = Some d → truthy_number (Some d) = true →
  let s' := step (from_browser (media_ended h)) s in
  emitted s' = emitted s ++ [out_preset_progress idx (Some d) (Some d) (Some true)]
  ∧ presetAudios s' !! idx = None
  ∧ (∀ idx', idx' ≠ idx → presetAudios s' !! idx' = presetAudios s !! idx')
  ∧ ∃ a', audioElements s' !! h = Some a' ∧ ended a' = true
          ∧ currentTime a' = d.
Proof.
  intros Hr Hidx Ha Hp Hd Ht s'. pose proof (reachable_Inv s Hr) as I.
  destruct (wf_preset _ (inv_wf _ I) _ _ Hidx)
    as (a0 & Ha0 & Hloop & Hlive & Hend & Ho).
  rewrite Ha in Ha0. injection Ha0 as <-.
  subst s'. simpl. unfold on_media_ended. rewrite Ha.
  unfold playing. rewrite Hp, Hloop, Hend, Hd, Ht.
  rewrite bool_decide_eq_false_2 by done. simpl. rewrite Ho.
  unfold preset_onended, emit, update_element. simpl.
  rewrite !lookup_alter_eq, Ha. simpl. rewrite Hd.
  repeat split.
  - apply lookup_delete_eq.
  - intros idx' Hne. by rewrite lookup_delete_ne.
  - eexists. split; [done|]. done.
Qed.

Lemma preset_end_reports_once_witness :
  let s := run [from_browser (gesture click);
                from_socket (audio_play_preset 3 "intro.mp3");
                from_browser (media_loadedmetadata 0 120%Q)] loaded in
  let s' := step (from_browser (media_ended 0)) s in
  emitted s' = emitted s ++ [out_preset_progress 3 (Some 120%Q) (Some 120%Q)
                               (Some true)]
  ∧ presetAudios s' !! 3%Z = None.
Proof.
  intros s s'.
  destruct (preset_end_reports_once s 3 0
              (mkAudio "http://192.168.10.1:3000/presets/intro.mp3" false 1%Q
                 false 0%Q (Some 120%Q) false (Some (PresetEnded 3 0)))
              120%Q
              ltac:(repeat apply reachable_step; apply reachable_loaded)
              eq_refl eq_refl eq_refl eq_refl eq_refl) as (H1 & H2 & _).
  split; [exact H1|exact H2].
Defined.

(** ** Registration of listeners *)




(** ** Unlocking *)

Lemma doUnlockAudio_open s :
  audioUnlocked s = false → enabled (audioConfig s) = true →
  doUnlockAudio s
  = removeUnlockListeners (startProgressReporting
      (emit out_register_audio_player
         (set_audioUnlocked true (initAudioContext s)))).
Proof. intros Hu He. unfold doUnlockAudio. by rewrite Hu, He. Qed.

Lemma removeUnlockListeners_detaches s :
  window_defined s = true → unlockListeners (removeUnlockListeners s) = [].
Proof.
  intros Hw. unfold removeUnlockListeners. rewrite Hw. simpl.
  induction (unlockListeners s) as [|e l IH]; [done|].
  destruct e; simpl; done.
Qed.

Lemma initAudioContext_gain s :
  audioCtx s = false → masterGain (initAudioContext s) = Some (masterVolume s).
Proof. intros H. unfold initAudioContext. by rewrite H. Qed.

Lemma doUnlockAudio_effect s :
  audioUnlocked s = false → enabled (audioConfig s) = true →
  let s' := doUnlockAudio s in
  audioUnlocked s' = true
  ∧ emitted s' = emitted s ++ [out_register_audio_player]
  ∧ is_Some (progressInterval s')
  ∧ masterGain s' = masterGain (initAudioContext s)
  ∧ audioCtx s' = true
  ∧ (window_defined s = true → unlockListeners s' = [])
  ∧ audioConfig s' = audioConfig s
  ∧ audioElements s' = audioElements s.
Proof.
  intros Hu He s'. subst s'. rewrite (doUnlockAudio_open s Hu He).
  set (s1 := initAudioContext s).
  assert (H1 : emitted s1 = emitted s ∧ audioCtx s1 = true
               ∧ audioConfig s1 = audioConfig s
               ∧ audioElements s1 = audioElements s
               ∧ window_defined s1 = window_defined s).
  { subst s1. unfold initAudioContext. by destruct (audioCtx s) eqn:E. }
  clearbody s1. destruct H1 as (Hem & Hctx & Hcfg & Hels & Hwin).
  set (s2 := startProgressReporting _).
  assert (H2 : audioUnlocked s2 = true
               ∧ emitted s2 = emitted s ++ [out_register_audio_player]
               ∧ is_Some (progressInterval s2)
               ∧ masterGain s2 = masterGain s1 ∧ audioCtx s2 = true
               ∧ audioConfig s2 = audioConfig s
               ∧ audioElements s2 = audioElements s
               ∧ window_defined s2 = window_defined s).
  { subst s2. unfold startProgressReporting, emit.
    destruct (progressInterval s1) eqn:E; simpl; rewrite ?E, Hem;
      repeat split; eauto. }
  clearbody s2.
  destruct H2 as (H2a & H2b & H2c & H2d & H2e & H2f & H2g & H2h).
  repeat match goal with |- _ ∧ _ => split end;
    try (rewrite removeUnlockListeners_frame; assumption).
  intros Hw. apply removeUnlockListeners_detaches. congruence.
Qed.

(** ** The volume controller *)

(** C6.  The master-volume command always stores the value.  If the gain
    node exists its gain becomes the value at once; if no graph exists
    yet, nothing but the stored value changes and the graph created by the
    next unlock starts with it as its gain.  No element is touched, so
    every per-element volume is as before, and so is every slot. *)
Theorem master_volume_sets_gain_only v s :
  let s' := audio_listener (audio_master_volume v) s in
  masterVolume s' = v
  ∧ (is_Some (masterGain s) → masterGain s' = Some v)
  ∧ (masterGain s = None → masterGain s' = None)
  ∧ (audioCtx s = false → masterGain (initAudioContext s') = Some v)
  ∧ (audioCtx s = false → audioUnlocked s = false →
     enabled (audioConfig s) = true →
     masterGain (doUnlockAudio s') = Some v
     ∧ audioUnlocked (doUnlockAudio s') = true)
  ∧ audioElements s' = audioElements s
  ∧ ambientAudios s' = ambientAudios s ∧ presetAudios s' = presetAudios s
  ∧ ttsAudio s' = ttsAudio s ∧ iaVolume s' = iaVolume s.
Proof.
  intros s'.
  assert (Hs' : masterVolume s' = v ∧ audioCtx s' = audioCtx s
                ∧ audioUnlocked s' = audioUnlocked s
                ∧ audioConfig s' = audioConfig s
                ∧ audioElements s' = audioElements s
                ∧ ambientAudios s' = ambientAudios s
                ∧ presetAudios s' = presetAudios s
                ∧ ttsAudio s' = ttsAudio s ∧ iaVolume s' = iaVolume s
                ∧ masterGain s' = (λ _, v) <$> masterGain s).
  { subst s'. simpl. unfold on_master_volume. simpl.
    destruct (masterGain s) eqn:E; simpl; rewrite ?E; repeat split; done. }
  clearbody s'.
  destruct Hs' as (Hv & Hctx & Hu & Hc & Hels & Hamb & Hpre & Htts & Hia & Hg).
  repeat match goal with |- _ ∧ _ => split end; try done.
  - intros [g Hsome]. by rewrite Hg, Hsome.
  - intros Hnone. by rewrite Hg, Hnone.
  - intros H. rewrite initAudioContext_gain by congruence. by rewrite Hv.
  - intros H Hun Hen.
    destruct (doUnlockAudio_effect s') as (H1 & _ & _ & H4 & _);
      [congruence..|].
    split; [|done].
    rewrite H4, initAudioContext_gain by congruence. by rewrite Hv.
Qed.

Lemma master_volume_sets_gain_only_witness :
  let s' := audio_listener (audio_master_volume 0.25%Q) loaded in
  masterGain s' = None
  ∧ masterGain (doUnlockAudio s') = Some 0.25%Q
  ∧ masterGain (audio_listener (audio_master_volume 0.75%Q) (doUnlockAudio s'))
    = Some 0.75%Q.
Proof.
  intros s'.
  destruct (master_volume_sets_gain_only 0.25%Q loaded)
    as (_ & _ & Hnone & _ & Hunlock & _).
  destruct (master_volume_sets_gain_only 0.75%Q (doUnlockAudio s'))
    as (_ & Hsome & _).
  split; [exact (Hnone eq_refl)|].
  split; [exact (proj1 (Hunlock eq_refl eq_refl eq_refl))|].
  apply Hsome. exists 0.25%Q. reflexivity.
Defined.





Lemma unlocked_stopAllAudio s : audioUnlocked (stopAllAudio s) = audioUnlocked s.
Proof. by rewrite stopAllAudio_eq. Qed.

Lemma unlocked_stopProgressReporting s :
  audioUnlocked (stopProgressReporting s) = audioUnlocked s.
Proof. unfold stopProgressReporting. by destruct (progressInterval s). Qed.

Lemma unlocked_doUnlockAudio s :
  audioUnlocked s = true → doUnlockAudio s = s.
Proof. intros H. unfold doUnlockAudio. by rewrite H. Qed.

Lemma unlocked_step e s :
  audioUnlocked s = true → audioUnlocked (step e s) = true.
Proof.
  intros Hu. destruct e as [e|c|e]; simpl.
  - unfold deliver. apply foldl_preserves; [done|].
    intros s0 l Hs0. destruct l; simpl; try done.
    + by destruct (audio_listener_control e s0) as (-> & _).
    + unfold on_connect. destruct (registeredData s0); simpl;
        repeat case_bool_decide; simpl; rewrite Hs0; simpl;
        by destruct (enabled (audioConfig s0)).
    + by destruct e.
  - destruct c; simpl; try done.
    + unfold api_onConnect, socket_on. by rewrite socket_off_frame.
    + unfold api_onDisconnect, socket_on. by rewrite socket_off_frame.
    + unfold api_configureAudio.
      set (s1 := set_audioConfig _ s).
      set (s2 := if rearm_condition config s1 then addUnlockListeners s1 else s1).
      assert (audioUnlocked s2 = true) as H2.
      { subst s2. destruct (rearm_condition config s1); [|done].
        by rewrite addUnlockListeners_frame. }
      case_bool_decide; [|done].
      by rewrite unlocked_stopProgressReporting, unlocked_stopAllAudio.
    + unfold api_unlockAudio. by rewrite Hu.
    + unfold api_disableAudio.
      by rewrite unlocked_stopProgressReporting, unlocked_stopAllAudio.
    + unfold api_enableAudio. simpl. rewrite Hu.
      unfold startProgressReporting. simpl. by destruct (progressInterval s).
  - destruct e; simpl.
    + unfold on_gesture. case_bool_decide; [|done].
      by rewrite unlocked_doUnlockAudio.
    + destruct (progressInterval s); [|done]. by rewrite report_progress_frame.
    + by destruct (pendingTimeouts s).
    + destruct (audioElements s !! h); [|done]. by case_bool_decide.
    + destruct (audioElements s !! h) as [a|]; [|done]. by destruct (playing a).
    + done.
    + unfold on_media_ended. destruct (audioElements s !! h) as [a|]; [|done].
      destruct (playing a && negb (loop a) && truthy_number (duration a));
        [|done].
      by destruct (onended a) as [[]|].
Qed.

(** C8.  Unlocking when the gate is already unlocked, or when audio is
    disabled, changes nothing.  The first successful unlock sets the
    unlock flag, emits register-audio-player (and nothing else), leaves an
    interval running for the progress reporter and removes the three
    gesture listeners.  Once set, the unlock flag stays set along every
    sequence of events. *)
Theorem unlock_is_idempotent_and_final s :
  (audioUnlocked s = true ∨ enabled (audioConfig s) = false →
     doUnlockAudio s = s ∧ api_unlockAudio s = (audioUnlocked s, s))
  ∧ (audioUnlocked s = false → enabled (audioConfig s) = true →
     let s' := doUnlockAudio s in
     audioUnlocked s' = true
     ∧ emitted s' = emitted s ++ [out_register_audio_player]
     ∧ is_Some (progressInterval s')
     ∧ (window_defined s = true → unlockListeners s' = [])
     ∧ api_unlockAudio s = (true, s')
     ∧ doUnlockAudio s' = s')
  ∧ (audioUnlocked s = true → ∀ es, audioUnlocked (run es s) = true).
Proof.
  repeat match goal with |- _ ∧ _ => split end.
  - intros H. unfold doUnlockAudio, api_unlockAudio.
    destruct (audioUnlocked s); [done|].
    destruct H as [H|H]; [done|]. by rewrite H.
  - intros Hu He s'.
    destruct (doUnlockAudio_effect s Hu He) as (H1 & H2 & H3 & _ & _ & H6 & _).
    fold s' in H1, H2, H3, H6.
    repeat match goal with |- _ ∧ _ => split end; try done.
    + unfold api_unlockAudio. rewrite Hu, He. simpl. fold s'. by rewrite H1.
    + by apply unlocked_doUnlockAudio.
  - intros Hu es. unfold run. apply foldl_preserves; [done|].
    intros s0 e. apply unlocked_step.
Qed.

Lemma unlock_is_idempotent_and_final_witness :
  let s' := doUnlockAudio loaded in
  audioUnlocked s' = true
  ∧ emitted s' = [out_register_audio_player]
  ∧ unlockListeners s' = []
  ∧ doUnlockAudio s' = s'
  ∧ audioUnlocked (run [from_caller disableAudio; from_socket audio_stop_all;
                        from_caller (configureAudio (mkPartial (Some false) None None))]
                     s') = true.
Proof.
  intros s'.
  destruct (unlock_is_idempotent_and_final loaded) as (_ & Hfirst & _).
  destruct (Hfirst eq_refl eq_refl) as (H1 & H2 & _ & H4 & _ & _).
  destruct (unlock_is_idempotent_and_final s') as (Hidem & _ & Hmono).
  split; [exact H1|]. split; [exact H2|]. split; [exact (H4 eq_refl)|].
  split; [exact (proj1 (Hidem (or_introl H1)))|].
  exact (Hmono H1 _).
Defined.

(** ** The voice lookup cache *)



(** ** Configuring audio *)

Lemma elem_of_addEventListener e e' s :
  e' ∈ unlockListeners (addEventListener e s)
  ↔ e' = e ∨ e' ∈ unlockListeners s.
Proof.
  unfold addEventListener. case_bool_decide as He; simpl.
  - split; [by right|]. by intros [->|?].
  - rewrite elem_of_app, list_elem_of_singleton. tauto.
Qed.

Lemma addUnlockListeners_binds s e :
  window_defined s = true → e ∈ unlockListeners (addUnlockListeners s).
Proof.
  intros Hw. unfold addUnlockListeners. rewrite Hw. simpl.
  rewrite !elem_of_addEventListener. destruct e; tauto.
Qed.

(** C10.  [configureAudio] merges the partial configuration into the
    stored one, and looks at the partial alone to decide about the gesture
    listeners: with a window, all three unlock events are bound when the
    partial has [enabled] true and does not have [autoUnlock] false,
    whatever the stored [autoUnlock] is, and otherwise the bindings are
    left as they were.  A partial with [enabled] false also empties every
    slot, tears down every element they referred to and clears the
    interval of the progress reporter. *)
Theorem configureAudio_reads_the_partial config s :
  window_defined s = true →
  let s' := api_configureAudio config s in
  audioConfig s' = merge_config (audioConfig s) config
  ∧ (partial_enabled config = Some true →
     partial_autoUnlock config ≠ Some false →
     ∀ e, e ∈ unlockListeners s')
  ∧ (¬ (partial_enabled config = Some true
        ∧ partial_autoUnlock config ≠ Some false) →
     unlockListeners s' = unlockListeners s)
  ∧ (partial_enabled config = Some false →
     ambientAudios s' = ∅ ∧ presetAudios s' = ∅ ∧ ttsAudio s' = None
     ∧ progressInterval s' = None
     ∧ ∀ h a, h ∈ referenced s → audioElements s' !! h = Some a →
              src a = "" ∧ paused a = true)
  ∧ (partial_enabled config ≠ Some false →
     ambientAudios s' = ambientAudios s ∧ presetAudios s' = presetAudios s
     ∧ ttsAudio s' = ttsAudio s ∧ progressInterval s' = progressInterval s
     ∧ audioElements s' = audioElements s).
Proof.
  intros Hw s'. subst s'. unfold api_configureAudio.
  set (s1 := set_audioConfig _ s).
  set (s2 := if rearm_condition config s1 then addUnlockListeners s1 else s1).
  assert (Hrearm : rearm_condition config s1 = true
                   ↔ partial_enabled config = Some true
                     ∧ partial_autoUnlock config ≠ Some false).
  { unfold rearm_condition. subst s1. simpl. rewrite Hw, andb_true_r.
    destruct (partial_enabled config) as [[]|]; simpl;
      try case_bool_decide; simpl; intuition congruence. }
  assert (H2 : audioConfig s2 = merge_config (audioConfig s) config
               ∧ ambientAudios s2 = ambientAudios s
               ∧ presetAudios s2 = presetAudios s ∧ ttsAudio s2 = ttsAudio s
               ∧ progressInterval s2 = progressInterval s
               ∧ audioElements s2 = audioElements s
               ∧ referenced s2 = referenced s).
  { subst s2. destruct (rearm_condition config s1); [|done].
    by rewrite addUnlockListeners_frame. }
  destruct H2 as (Hc & Hamb & Hpre & Htts & Hpi & Hels & Href).
  assert (Hul : (rearm_condition config s1 = true → ∀ e, e ∈ unlockListeners s2)
                ∧ (rearm_condition config s1 ≠ true →
                   unlockListeners s2 = unlockListeners s)).
  { subst s2. destruct (rearm_condition config s1); split; try done.
    intros _ e. by apply addUnlockListeners_binds. }
  destruct Hul as [Hbind Hkeep]. clearbody s2.
  assert (Hstop : ∀ s0, unlockListeners (stopProgressReporting (stopAllAudio s0))
                       = unlockListeners s0
                     ∧ audioConfig (stopProgressReporting (stopAllAudio s0))
                       = audioConfig s0
                     ∧ progressInterval (stopProgressReporting (stopAllAudio s0))
                       = None
                     ∧ ambientAudios (stopProgressReporting (stopAllAudio s0)) = ∅
                     ∧ presetAudios (stopProgressReporting (stopAllAudio s0)) = ∅
                     ∧ ttsAudio (stopProgressReporting (stopAllAudio s0)) = None
                     ∧ audioElements (stopProgressReporting (stopAllAudio s0))
                       = audioElements (stopAllAudio s0)).
  { intros s0. unfold stopProgressReporting.
    destruct (progressInterval (stopAllAudio s0)) eqn:E; simpl; rewrite ?E;
      by rewrite stopAllAudio_eq. }
  destruct (Hstop s2) as (S1 & S2 & S3 & S4 & S5 & S6 & S7).
  repeat match goal with |- _ ∧ _ => split end.
  - case_bool_decide; congruence.
  - intros He Ha e. case_bool_decide; rewrite ?S1; apply Hbind, Hrearm; done.
  - intros Hn. case_bool_decide; rewrite ?S1; apply Hkeep; by rewrite Hrearm.
  - intros He. rewrite bool_decide_eq_true_2 by done.
    repeat match goal with |- _ ∧ _ => split end; try done.
    intros h a Hh. rewrite S7, stopAllAudio_elements, Href, Hels.
    rewrite decide_True by done.
    destruct (audioElements s !! h); simpl; [|done]. by intros [= <-].
  - intros He. by rewrite bool_decide_eq_false_2 by done.
Qed.

Lemma configureAudio_reads_the_partial_witness :
  let s := api (configureAudio (mkPartial None (Some false) None))
             (step (from_browser (gesture click)) loaded) in
  let s' := api_configureAudio (mkPartial (Some true) None None) s in
  autoUnlock (audioConfig s) = false ∧ unlockListeners s = []
  ∧ autoUnlock (audioConfig s') = false
  ∧ ∀ e, e ∈ unlockListeners s'.
Proof.
  intros s s'.
  destruct (configureAudio_reads_the_partial (mkPartial (Some true) None None)
              s eq_refl) as (Hc & Hbind & _).
  split; [reflexivity|]. split; [reflexivity|].
  split; [exact (f_equal autoUnlock Hc)|].
  exact (Hbind eq_refl ltac:(discriminate)).
Defined.

(** * Further properties of the audio engine *)

(** ** Commands for a target that does not exist *)

(** Stop, volume, pause and seek commands that name an ambient id or a
    preset slot holding nothing leave the whole state as it is: nothing is
    emitted, nothing is created, no element changes. *)
Theorem absent_target_is_ignored s :
  (∀ id, ambientAudios s !! id = None →
     audio_listener (audio_stop_ambient id) s = s
     ∧ ∀ v, audio_listener (audio_volume_ambient id v) s = s)
  ∧ (∀ idx, presetAudios s !! idx = None →
       audio_listener (audio_pause_preset idx) s = s
       ∧ audio_listener (audio_stop_preset idx) s = s
       ∧ ∀ t, audio_listener (audio_seek_preset idx t) s = s).
Proof.
  split.
  - intros id Hid. simpl. unfold on_stop_ambient, on_volume_ambient.
    by rewrite Hid.
  - intros idx Hidx. simpl.
    unfold on_pause_preset, on_stop_preset, on_seek_preset. by rewrite Hidx.
Qed.

Lemma absent_target_is_ignored_witness :
  audio_listener (audio_stop_ambient "rain") loaded = loaded
  ∧ audio_listener (audio_seek_preset 4 12%Q) loaded = loaded.
Proof.
  destruct (absent_target_is_ignored loaded) as [Hamb Hpre].
  split.
  - exact (proj1 (Hamb "rain" eq_refl)).
  - exact (proj2 (proj2 (Hpre 4%Z eq_refl)) 12%Q).
Defined.

(** ** Stopping and restarting a preset *)



(** ** The speech clip *)



(** When the speech clip reaches its end while playing, the object URL held
    by its end handler is revoked, the singleton is cleared, and nothing is
    emitted; no slot changes. *)
Theorem tts_end_releases_url s h a d :
  reachable s → ttsAudio s = Some h → audioElements s !! h = Some a →
  playing a = true → duration a = Some d → truthy_number (Some d) = true →
  let s' := step (from_browser (media_ended h)) s in
  ∃ url, onended a = Some (TtsEnded url)
         ∧ revoked s' = revoked s ++ [url]
         ∧ ttsAudio s' = None
         ∧ emitted s' = emitted s
         ∧ ambientAudios s' = ambientAudios s
         ∧ presetAudios s' = presetAudios s.
Proof.
  intros Hr Ht Ha Hp Hd Htr s'. pose proof (reachable_Inv s Hr) as I.
  destruct (wf_tts _ (inv_wf _ I) _ Ht) as (a0 & url & Ha0 & Hloop & Ho).
  rewrite Ha in Ha0. injection Ha0 as <-.
  exists url. split; [done|].
  subst s'. simpl. unfold on_media_ended. rewrite Ha, Hp, Hloop, Hd, Htr.
  simpl. by rewrite Ho.
Qed.

Lemma tts_end_releases_url_witness :
  let s := run [from_browser (gesture click);
                from_socket (audio_play_tts "AAAA" None);
                from_browser (media_loadedmetadata 0 2%Q)] loaded in
  let s' := step (from_browser (media_ended 0)) s in
  ∃ url, revoked s' = revoked s ++ [url] ∧ ttsAudio s' = None.
Proof.
  intros s s'.
  destruct (tts_end_releases_url s 0
              (mkAudio "blob:0" false 1%Q false 0%Q (Some 2%Q) false
                 (Some (TtsEnded "blob:0"))) 2%Q
              ltac:(repeat apply reachable_step; apply reachable_loaded)
              eq_refl eq_refl eq_refl eq_refl eq_refl)
    as (url & _ & H2 & H3 & _).
  exists url. split; [exact H2|exact H3].
Defined.

(** ** The routing graph *)
















(** ** The progress reporter *)

Lemma report_progress_emitted s :
  emitted (report_progress s)
  = emitted s ++ omap (progress_report s) (map_to_list (presetAudios s)).
Proof.
  unfold report_progress.
  generalize (map_to_list (presetAudios s)) as l. intros l.
  assert (Hgen : ∀ s0, audioElements s0 = audioElements s →
    let s' := foldl (λ s '(idx, h),
                 match audioElements s !! h with
                 | Some audio =>
                     if negb (paused audio) && truthy_number (duration audio)
                     then emit (out_preset_progress idx (Some (currentTime audio))
                                  (duration audio) None) s
                     else s
                 | None => s
                 end) s0 l in
    emitted s' = emitted s0 ++ omap (progress_report s) l).
  { induction l as [|[idx h] l IH]; intros s0 Hs0; simpl.
    - by rewrite app_nil_r.
    - unfold progress_report at 1. simpl. rewrite <- Hs0.
      destruct (audioElements s0 !! h) as [a|]; [|by apply IH].
      destruct (negb (paused a) && truthy_number (duration a)); [|by apply IH].
      rewrite IH by done. simpl. by rewrite <- app_assoc. }
  by apply Hgen.
Qed.

(** One firing of the reporter's interval, while it is set, emits one
    progress report for each preset slot whose element is not paused and
    has a known, non-zero duration, with that element's position and
    duration and no [ended] mark, and emits nothing else; no two reports
    are for the same slot, and nothing but the list of emitted events
    changes.  Once the interval has been cleared a firing does nothing. *)
Theorem interval_reports_playing_presets s :
  let s' := browser interval_fires s in
  (progressInterval s = None → s' = s)
  ∧ (is_Some (progressInterval s) →
     ∃ evs, emitted s' = emitted s ++ evs
       ∧ s' = set_emitted (emitted s') s
       ∧ NoDup evs
       ∧ ∀ ev, ev ∈ evs ↔
           ∃ idx h a, presetAudios s !! idx = Some h
             ∧ audioElements s !! h = Some a
             ∧ paused a = false ∧ truthy_number (duration a) = true
             ∧ ev = out_preset_progress idx (Some (currentTime a))
                      (duration a) None).
Proof.
  simpl. split; [by intros ->|]. intros [t ->].
  exists (omap (progress_report s) (map_to_list (presetAudios s))).
  split; [apply report_progress_emitted|].
  split; [apply report_progress_frame|]. split.
  - pose proof (NoDup_fst_map_to_list (presetAudios s)) as Hnd.
    induction (map_to_list (presetAudios s)) as [|[idx h] l IH]; simpl.
    + constructor.
    + apply NoDup_cons in Hnd as [Hnin Hnd]. specialize (IH Hnd).
      destruct (progress_report s (idx, h)) as [ev|] eqn:Hev; [|done].
      constructor; [|done]. intros Hin. apply Hnin.
      apply list_elem_of_omap in Hin as ([idx' h'] & Hin & Hev').
      apply list_elem_of_fmap. exists (idx', h'). split; [|done]. simpl.
      unfold progress_report in Hev, Hev'. simpl in *.
      destruct (audioElements s !! h) as [a|]; [|done].
      destruct (audioElements s !! h') as [a'|]; [|done].
      destruct (negb (paused a) && truthy_number (duration a)); [|done].
      destruct (negb (paused a') && truthy_number (duration a')); [|done].
      congruence.
  - intros ev. rewrite list_elem_of_omap. split.
    + intros ([idx h] & Hin%elem_of_map_to_list & Hev).
      unfold progress_report in Hev. simpl in Hev.
      destruct (audioElements s !! h) as [a|] eqn:Ha; [|done].
      destruct (negb (paused a) && truthy_number (duration a)) eqn:Hc; [|done].
      apply andb_prop in Hc as [Hp%negb_true_iff Hd].
      injection Hev as <-. by exists idx, h, a.
    + intros (idx & h & a & Hidx & Ha & Hp & Hd & ->).
      exists (idx, h). split; [by apply elem_of_map_to_list|].
      unfold progress_report. simpl. by rewrite Ha, Hp, Hd.
Qed.

Lemma interval_reports_playing_presets_witness :
  let s := run [from_browser (gesture click);
                from_socket (audio_play_preset 0 "a.mp3");
                from_socket (audio_play_preset 1 "b.mp3");
                from_browser (media_loadedmetadata 0 60%Q);
                from_browser (media_loadedmetadata 1 90%Q);
                from_browser (media_timeupdate 1 7%Q);
                from_socket (audio_pause_preset 0)] loaded in
  (∃ evs, emitted (browser interval_fires s) = emitted s ++ evs
          ∧ out_preset_progress 1 (Some 7%Q) (Some 90%Q) None ∈ evs)
  ∧ browser interval_fires (api disableAudio s) = api disableAudio s.
Proof.
  intros s.
  destruct (interval_reports_playing_presets s) as [_ Hon].
  destruct (interval_reports_playing_presets (api disableAudio s)) as [Hoff _].
  split; [|exact (Hoff eq_refl)].
  destruct (Hon (ex_intro _ 0 eq_refl)) as (evs & Hem & _ & _ & Hin).
  exists evs. split; [exact Hem|]. apply Hin.
  exists 1%Z, 1, (mkAudio "http://192.168.10.1:3000/presets/b.mp3" false 1%Q
                    false 7%Q (Some 90%Q) false (Some (PresetEnded 1 1))).
  repeat split; reflexivity.
Defined.

(** ** Reconnecting *)

Lemma remove_first_callbacks cb cbs :
  ∃ cbs', remove_first (Callback cb) (Callback <$> cbs) = Callback <$> cbs'.
Proof.
  induction cbs as [|c cbs [cbs' IH]]; [by exists []|].
  rewrite fmap_cons.
  change (remove_first (Callback cb) (Callback c :: (Callback <$> cbs)))
    with (if decide (Callback c = Callback cb) then Callback <$> cbs
          else Callback c :: remove_first (Callback cb) (Callback <$> cbs)).
  case_decide; [by exists cbs|]. exists (c :: cbs'). by rewrite IH, fmap_cons.
Qed.

Lemma listeners_doUnlockAudio s : listeners (doUnlockAudio s) = listeners s.
Proof.
  unfold doUnlockAudio.
  destruct (audioUnlocked s || negb (enabled (audioConfig s))); [done|].
  rewrite removeUnlockListeners_frame. simpl.
  unfold startProgressReporting, initAudioContext.
  destruct (audioCtx s); simpl; destruct (progressInterval s); done.
Qed.

Lemma listeners_stop s :
  listeners (stopProgressReporting (stopAllAudio s)) = listeners s.
Proof.
  unfold stopProgressReporting.
  destruct (progressInterval (stopAllAudio s)); simpl;
    by rewrite stopAllAudio_eq.
Qed.

(** Only the four registration calls of the API change the listeners. *)
Lemma listeners_step e s :
  reachable s →
  match e with
  | from_caller (onCommand _) | from_caller (onMessage _)
  | from_caller (onConnect _) | from_caller (onDisconnect _) => True
  | _ => listeners (step e s) = listeners s
  end.
Proof.
  intros Hr. pose proof (reachable_Inv s Hr) as I.
  destruct e as [e|c|e]; simpl.
  - destruct (is_audio_event e) eqn:He.
    + rewrite deliver_audio by done.
      by destruct (audio_listener_control e s) as (_ & _ & ->).
    + unfold deliver. apply foldl_preserves; [done|].
      intros s0 l <-. destruct l; simpl; try done.
      * by rewrite audio_listener_other.
      * unfold on_connect. destruct (registeredData s0); simpl;
          repeat case_bool_decide; simpl;
          by destruct (audioUnlocked s0 && enabled (audioConfig s0)).
      * by destruct e.
  - destruct c; simpl; try done.
    + unfold api_configureAudio.
      set (s1 := set_audioConfig _ s).
      set (s2 := if rearm_condition config s1 then addUnlockListeners s1 else s1).
      assert (listeners s2 = listeners s) as H2.
      { subst s2. destruct (rearm_condition config s1); [|done].
        by rewrite addUnlockListeners_frame. }
      case_bool_decide; [|done]. by rewrite listeners_stop.
    + unfold api_unlockAudio.
      destruct (audioUnlocked s) eqn:Hu; simpl; [done|].
      destruct (negb (enabled (audioConfig s))) eqn:He; simpl; [done|].
      apply listeners_doUnlockAudio.
    + unfold api_disableAudio. by rewrite listeners_stop.
    + unfold api_enableAudio. simpl. unfold startProgressReporting. simpl.
      destruct (audioUnlocked s), (progressInterval s); done.
  - destruct e; simpl.
    + unfold on_gesture. case_bool_decide; [|done].
      by rewrite listeners_doUnlockAudio.
    + destruct (progressInterval s); [|done]. by rewrite report_progress_frame.
    + by destruct (pendingTimeouts s).
    + destruct (audioElements s !! h); [|done]. by case_bool_decide.
    + destruct (audioElements s !! h) as [a|]; [|done]. by destruct (playing a).
    + done.
    + unfold on_media_ended. destruct (audioElements s !! h) as [a|]; [|done].
      destruct (playing a && negb (loop a) && truthy_number (duration a));
        [|done].
      by destruct (onended a) as [[]|].
Qed.

Lemma connect_listeners s :
  reachable s →
  ∃ cbs, listeners_of "connect" s = ConnectListener :: (Callback <$> cbs).
Proof.
  induction 1 as [|e s Hr [cbs IH]]; [by exists []|].
  pose proof (listeners_step e s Hr) as Hl.
  assert (Hsame : listeners (step e s) = listeners s →
            ∃ cbs, listeners_of "connect" (step e s)
                   = ConnectListener :: (Callback <$> cbs)).
  { intros Heq. exists cbs. unfold listeners_of in *. by rewrite Heq. }
  destruct e as [e|c|e]; [by apply Hsame| |by apply Hsame].
  destruct c; try (by apply Hsame); simpl.
  - exists cbs. unfold api_onCommand.
    by rewrite listeners_of_socket_on, listeners_of_socket_off_all,
      !decide_False.
  - exists cbs. unfold api_onMessage.
    by rewrite listeners_of_socket_on, listeners_of_socket_off_all,
      !decide_False.
  - unfold api_onConnect.
    rewrite listeners_of_socket_on, listeners_of_socket_off, !decide_True by done.
    rewrite IH.
    change (remove_first (Callback callback) (ConnectListener :: (Callback <$> cbs)))
      with (ConnectListener :: remove_first (Callback callback) (Callback <$> cbs)).
    destruct (remove_first_callbacks callback cbs) as [cbs' ->].
    exists (cbs' ++ [callback]). by rewrite fmap_app.
  - exists cbs. unfold api_onDisconnect.
    by rewrite listeners_of_socket_on, listeners_of_socket_off, !decide_False.
Qed.

(** In every reachable state the module's own connect listener is still
    registered, first and once, whatever was registered through onConnect.
    A connect event therefore re-sends the registration of the game if one
    is registered, announces the audio player exactly when the gate is
    unlocked and audio is enabled, emits nothing else, and leaves every
    audio slot alone. *)
Theorem reconnect_announces_when_ready s :
  reachable s →
  let s' := step (from_socket connect) s in
  head (listeners_of "connect" s) = Some ConnectListener
  ∧ emitted s'
    = emitted s
      ++ match registeredData s with Some d => [out_register d] | None => [] end
      ++ (if audioUnlocked s && enabled (audioConfig s)
          then [out_register_audio_player] else [])
  ∧ ambientAudios s' = ambientAudios s ∧ presetAudios s' = presetAudios s
  ∧ ttsAudio s' = ttsAudio s ∧ audioElements s' = audioElements s.
Proof.
  intros Hr s'. destruct (connect_listeners s Hr) as [cbs Hl].
  split; [by rewrite Hl|].
  subst s'. simpl. unfold deliver.
  change (event_name connect) with "connect". rewrite Hl. simpl.
  assert (Hcalls : ∀ s0,
    let s1 := foldl (λ s l, run_listener l connect s) s0 (Callback <$> cbs) in
    emitted s1 = emitted s0 ∧ ambientAudios s1 = ambientAudios s0
    ∧ presetAudios s1 = presetAudios s0 ∧ ttsAudio s1 = ttsAudio s0
    ∧ audioElements s1 = audioElements s0).
  { clear Hl. induction cbs as [|cb cbs IH]; intros s0; [done|].
    exact (IH (call cb connect s0)). }
  destruct (Hcalls (on_connect s)) as (-> & -> & -> & -> & ->).
  unfold on_connect. destruct (registeredData s); simpl;
    repeat case_bool_decide; simpl;
    destruct (audioUnlocked s && enabled (audioConfig s)); simpl;
    rewrite <- ?app_assoc, ?app_nil_r; done.
Qed.

Lemma reconnect_announces_when_ready_witness :
  let s := run [from_caller (onConnect 7);
                from_browser (gesture click);
                from_caller (onConnect 8)] loaded in
  emitted (step (from_socket connect) s)
  = emitted s ++ [] ++ [out_register_audio_player].
Proof.
  intros s.
  exact (proj1 (proj2 (reconnect_announces_when_ready s
           ltac:(repeat apply reachable_step; apply reachable_loaded)))).
Defined.

(** ** The game state *)

(** [updateState] merges key by key, the new value winning, and emits the
    merged state.  If a game is registered and the merged state is not
    empty, a reconnect followed by the firing of the timeout it schedules
    emits the registration and then the merged state again; after
    [resetState] a reconnect schedules nothing. *)
Theorem state_is_merged_and_replayed s st :
  let s1 := api (updateState st) s in
  (∀ k, lastKnownState s1 !! k
        = match st !! k with
          | Some v => Some v
          | None => lastKnownState s !! k
          end)
  ∧ emitted s1 = emitted s ++ [out_state_update (lastKnownState s1)]
  ∧ (∀ d, registeredData s = Some d → lastKnownState s1 ≠ ∅ →
       let s2 := browser timeout_fires (on_connect s1) in
       emitted s2
       = emitted s1 ++ [out_register d]
         ++ (if audioUnlocked s && enabled (audioConfig s)
             then [out_register_audio_player] else [])
         ++ [out_state_update (lastKnownState s1)]
       ∧ pendingTimeouts s2 = pendingTimeouts s)
  ∧ pendingTimeouts (on_connect (api resetState s1)) = pendingTimeouts s.
Proof.
  simpl. unfold api_updateState, api_resetState. simpl.
  repeat match goal with |- _ ∧ _ => split end.
  - intros k. rewrite lookup_union.
    destruct (st !! k), (lastKnownState s !! k); done.
  - done.
  - intros d Hd Hne. unfold on_connect. simpl. rewrite Hd. simpl.
    rewrite bool_decide_eq_false_2 by done. simpl.
    destruct (audioUnlocked s && enabled (audioConfig s)); simpl;
      unfold replay_state, emit; simpl; rewrite <- ?app_assoc; done.
  - unfold on_connect. simpl.
    destruct (registeredData s); simpl;
      rewrite ?bool_decide_eq_true_2 by done; simpl;
      by destruct (audioUnlocked s && enabled (audioConfig s)).
Qed.

Lemma state_is_merged_and_replayed_witness :
  let s := api (updateState {["door" := "open"; "lamp" := "off"]})
             (api (register "messagerie" "Messagerie" None None) loaded) in
  let s1 := api (updateState {["lamp" := "on"]}) s in
  lastKnownState s1 !! "lamp" = Some "on"
  ∧ lastKnownState s1 !! "door" = Some "open"
  ∧ ∃ d, emitted (browser timeout_fires (on_connect s1))
         = emitted s1 ++ [out_register d] ++ []
           ++ [out_state_update (lastKnownState s1)].
Proof.
  intros s s1.
  destruct (state_is_merged_and_replayed s {["lamp" := "on"]})
    as (Hk & _ & Hreplay & _).
  split; [exact (Hk "lamp")|]. split; [exact (Hk "door")|].
  eexists.
  refine (proj1 (Hreplay _ eq_refl _)).
  intros Hempty. apply (f_equal (λ m, m !! "lamp")) in Hempty.
  vm_compute in Hempty. discriminate Hempty.
Defined.

(** ** Disabling and enabling again *)

Lemma stop_everything_fields s :
  let s' := stopProgressReporting (stopAllAudio s) in
  audioConfig s' = audioConfig s ∧ audioUnlocked s' = audioUnlocked s
  ∧ emitted s' = emitted s ∧ timers s' = timers s
  ∧ progressInterval s' = None
  ∧ ambientAudios s' = ∅ ∧ presetAudios s' = ∅ ∧ ttsAudio s' = None.
Proof.
  simpl. unfold stopProgressReporting.
  destruct (progressInterval (stopAllAudio s)) eqn:E; simpl; rewrite ?E;
    by rewrite stopAllAudio_eq.
Qed.

Lemma configureAudio_fields config s :
  let s' := api_configureAudio config s in
  audioConfig s' = merge_config (audioConfig s) config
  ∧ audioUnlocked s' = audioUnlocked s ∧ emitted s' = emitted s
  ∧ (partial_enabled config = Some false →
     progressInterval s' = None
     ∧ ambientAudios s' = ∅ ∧ presetAudios s' = ∅ ∧ ttsAudio s' = None)
  ∧ (partial_enabled config ≠ Some false →
     progressInterval s' = progressInterval s
     ∧ ambientAudios s' = ambientAudios s ∧ presetAudios s' = presetAudios s
     ∧ ttsAudio s' = ttsAudio s).
Proof.
  simpl. unfold api_configureAudio.
  set (s1 := set_audioConfig _ s).
  set (s2 := if rearm_condition config s1 then addUnlockListeners s1 else s1).
  assert (H2 : audioConfig s2 = merge_config (audioConfig s) config
               ∧ audioUnlocked s2 = audioUnlocked s ∧ emitted s2 = emitted s
               ∧ progressInterval s2 = progressInterval s
               ∧ ambientAudios s2 = ambientAudios s
               ∧ presetAudios s2 = presetAudios s ∧ ttsAudio s2 = ttsAudio s).
  { subst s2. destruct (rearm_condition config s1); [|done].
    by rewrite addUnlockListeners_frame. }
  clearbody s2. destruct H2 as (Hc & Hu & He & Hp & Ha & Hpr & Ht).
  destruct (stop_everything_fields s2) as (S1 & S2 & S3 & _ & S5 & S6 & S7 & S8).
  case_bool_decide as Hen;
    repeat match goal with |- _ ∧ _ => split end; try congruence; done.
Qed.

(** Turning audio off and on again through [configureAudio] opens the
    gate again but leaves the progress reporter stopped, so the interval
    never fires a report; [disableAudio] followed by [enableAudio]
    restarts the reporter and announces the player.  Both ways empty
    every slot. *)
Theorem reenabling_restarts_reporter_only_by_enableAudio s :
  audioUnlocked s = true →
  let off := mkPartial (Some false) None None in
  let on := mkPartial (Some true) None None in
  let s1 := api (configureAudio on) (api (configureAudio off) s) in
  let s2 := api enableAudio (api disableAudio s) in
  isAudioReady s1 = true ∧ progressInterval s1 = None
  ∧ browser interval_fires s1 = s1 ∧ emitted s1 = emitted s
  ∧ isAudioReady s2 = true ∧ is_Some (progressInterval s2)
  ∧ emitted s2 = emitted s ++ [out_register_audio_player]
  ∧ ambientAudios s1 = ∅ ∧ presetAudios s1 = ∅ ∧ ttsAudio s1 = None
  ∧ ambientAudios s2 = ∅ ∧ presetAudios s2 = ∅ ∧ ttsAudio s2 = None.
Proof.
  intros Hu off on s1 s2.
  set (s0 := api (configureAudio off) s) in *.
  destruct (configureAudio_fields off s) as (C1 & C2 & C3 & C4 & _).
  destruct (C4 eq_refl) as (C5 & C6 & C7 & C8).
  change (api_configureAudio off s) with s0 in C1, C2, C3, C5, C6, C7, C8.
  destruct (configureAudio_fields on s0) as (D1 & D2 & D3 & _ & D5).
  destruct (D5 ltac:(done)) as (D6 & D7 & D8 & D9).
  change (api_configureAudio on s0) with s1 in D1, D2, D3, D6, D7, D8, D9.
  destruct (stop_everything_fields
              (set_audioConfig (set_enabled false (audioConfig s)) s))
    as (E1 & E2 & E3 & E4 & E5 & E6 & E7 & E8).
  set (s3 := stopProgressReporting _) in *.
  simpl in E1, E2, E3, E4.
  assert (Hs2 : s2 = startProgressReporting (emit out_register_audio_player
                       (set_audioConfig (set_enabled true (audioConfig s3)) s3))).
  { subst s2. simpl. unfold api_disableAudio, api_enableAudio. fold s3.
    simpl. by rewrite E2, Hu. }
  unfold isAudioReady.
  assert (Hs2' : s2 = set_progressInterval (Some (timers s3))
                        (set_timers (S (timers s3))
                           (emit out_register_audio_player
                              (set_audioConfig (set_enabled true (audioConfig s3)) s3)))).
  { rewrite Hs2. unfold startProgressReporting. simpl. by rewrite E5. }
  clear Hs2. clearbody s0 s1 s2 s3. subst s2.
  repeat match goal with |- _ ∧ _ => split end; simpl; try congruence.
  - by rewrite D2, C2, Hu, D1.
  - by rewrite D6, C5.
  - by rewrite E2, Hu.
  - by eexists.
Qed.

Lemma reenabling_restarts_reporter_only_by_enableAudio_witness :
  let s := step (from_browser (gesture click)) loaded in
  let s1 := api (configureAudio (mkPartial (Some true) None None))
              (api (configureAudio (mkPartial (Some false) None None)) s) in
  isAudioReady s1 = true ∧ progressInterval s1 = None
  ∧ is_Some (progressInterval (api enableAudio (api disableAudio s))).
Proof.
  intros s s1.
  destruct (reenabling_restarts_reporter_only_by_enableAudio s eq_refl)
    as (H1 & H2 & _ & _ & _ & H6 & _).
  split; [exact H1|]. split; [exact H2|exact H6].
Defined.

(** ** Gestures *)

(** A gesture on an event that is not bound does nothing.  A gesture made
    while audio is disabled does not unlock and uses up the binding of its
    event (the other bindings stay), so the same gesture repeated after
    [enableAudio] still does not unlock.  After a successful unlock every
    gesture is without effect. *)
Theorem gestures_are_one_shot s e :
  (e ∉ unlockListeners s → on_gesture e s = s)
  ∧ (enabled (audioConfig s) = false →
     let s1 := on_gesture e s in
     audioUnlocked s1 = audioUnlocked s
     ∧ (e ∉ unlockListeners s1)
     ∧ (∀ e', e' ≠ e → e' ∈ unlockListeners s → e' ∈ unlockListeners s1)
     ∧ audioUnlocked (on_gesture e (api enableAudio s1)) = audioUnlocked s)
  ∧ (audioUnlocked s = false → enabled (audioConfig s) = true →
     window_defined s = true → e ∈ unlockListeners s →
     let s1 := on_gesture e s in
     audioUnlocked s1 = true ∧ ∀ e', on_gesture e' s1 = s1).
Proof.
  repeat match goal with |- _ ∧ _ => split end.
  - intros Hnin. unfold on_gesture. by rewrite bool_decide_eq_false_2.
  - intros Hen s1.
    assert (Hs1 : s1 = if bool_decide (e ∈ unlockListeners s)
                       then removeEventListener e s else s).
    { subst s1. unfold on_gesture. case_bool_decide; [|done].
      unfold doUnlockAudio. simpl. rewrite Hen. by rewrite orb_true_r. }
    clearbody s1.
    assert (Hul : ∀ x, x ∈ unlockListeners s1 ↔ x ≠ e ∧ x ∈ unlockListeners s).
    { intros x. rewrite Hs1. case_bool_decide as Hin.
      - simpl. by rewrite list_elem_of_filter.
      - split; [|tauto]. intros Hx. split; [|done]. by intros ->. }
    assert (Hnin : e ∉ unlockListeners s1).
    { rewrite Hul. by intros [? _]. }
    assert (Hu1 : audioUnlocked s1 = audioUnlocked s).
    { rewrite Hs1. by case_bool_decide. }
    repeat match goal with |- _ ∧ _ => split end; try done.
    + intros e' Hne Hin. by apply Hul.
    + unfold on_gesture.
      assert (unlockListeners (api enableAudio s1) = unlockListeners s1
              ∧ audioUnlocked (api enableAudio s1) = audioUnlocked s1) as [H1 H2].
      { simpl. unfold api_enableAudio, startProgressReporting. simpl.
        destruct (audioUnlocked s1) eqn:E1; simpl;
          [destruct (progressInterval s1) eqn:E2; simpl; rewrite ?E2|];
          simpl; rewrite ?E1; done. }
      rewrite H1, bool_decide_eq_false_2 by done. congruence.
  - intros Hu Hen Hw Hin s1.
    assert (Hs1 : s1 = doUnlockAudio (removeEventListener e s)).
    { subst s1. unfold on_gesture. by rewrite bool_decide_eq_true_2. }
    destruct (doUnlockAudio_effect (removeEventListener e s) Hu Hen)
      as (H1 & _ & _ & _ & _ & H6 & _).
    rewrite <- Hs1 in H1, H6. split; [done|].
    intros e'. unfold on_gesture. rewrite (H6 Hw).
    rewrite bool_decide_eq_false_2; [done|]. apply not_elem_of_nil.
Qed.

Lemma gestures_are_one_shot_witness :
  let s := api disableAudio loaded in
  let s1 := on_gesture click s in
  audioUnlocked s1 = false ∧ (click ∉ unlockListeners s1)
  ∧ audioUnlocked (on_gesture click (api enableAudio s1)) = false
  ∧ audioUnlocked (on_gesture keydown (api enableAudio s1)) = true.
Proof.
  intros s s1.
  destruct (gestures_are_one_shot s click) as (_ & Hdis & _).
  destruct (Hdis eq_refl) as (H1 & H2 & _ & H4).
  destruct (gestures_are_one_shot (api enableAudio s1) keydown) as (_ & _ & Hok).
  split; [exact H1|]. split; [exact H2|]. split; [exact H4|].
  refine (proj1 (Hok eq_refl eq_refl eq_refl _)).
  vm_compute. apply list_elem_of_further, list_elem_of_here.
Defined.

(** ** While the gate is closed *)




(** ** The status getter *)



(** * Further properties of the voice lookup *)





(** * The message display *)





Ltac app_split := repeat match goal with |- _ ∧ _ => split end.










(** ** A message without content *)

Lemma blocked_run es s :
  App.isProcessing s = true → App.timeout s = None →
  App.run es s = App.set_messageQueue (App.messageQueue s ++ App.added es) s.
Proof.
  revert s. induction es as [|e es IH]; intros s Hp Ht.
  - destruct s. simpl in *. by rewrite app_nil_r.
  - assert (He : App.step e s
                 = App.set_messageQueue
                     (App.messageQueue s ++ App.added [e]) s).
    { destruct s as [cur ty fo vis q pr t rd el]. simpl in Hp, Ht. subst.
      destruct e as [m|]; [done|]. simpl. by rewrite app_nil_r. }
    change (App.run (e :: es) s) with (App.run es (App.step e s)).
    rewrite He, IH by done. destruct s, e; simpl; by rewrite <- ?app_assoc.
Qed.

(** When the first timeout of a message without content fires, reading
    the length of the content throws: nothing is scheduled and the promise
    of [showMessage] is never resolved.  From then on the display is
    blocked: it keeps showing the empty line with the typing cursor,
    nothing more is ever rendered, and every later message only joins the
    queue. *)
Theorem message_without_content_blocks_display s ms m i es :
  App.isProcessing s = true →
  App.timeout s = Some (ms, App.typeChar m i) →
  App.content m = None →
  let s' := App.run es (App.fire s) in
  App.isProcessing s' = true ∧ App.timeout s' = None
  ∧ App.rendered s' = App.rendered s
  ∧ App.currentMessage s' = App.currentMessage s
  ∧ App.isVisible s' = App.isVisible s ∧ App.isTyping s' = App.isTyping s
  ∧ App.messageQueue s' = App.messageQueue s ++ App.added es.
Proof.
  intros Hp Ht Hm s'. subst s'.
  assert (Hf : App.fire s = App.timeout_fired ms s).
  { unfold App.fire. rewrite Ht. simpl. by rewrite Hm. }
  rewrite Hf, blocked_run by done. by destruct s.
Qed.

Lemma message_without_content_blocks_display_witness :
  let s := App.on_command [] 7 "send_custom" ∅ App.initial in
  let later := App.mkMessage "m1" (Some "Hi") 0 None in
  let s' := App.run [App.timeout_fires; App.add later; App.timeout_fires] s in
  App.rendered s' = [""] ∧ App.isVisible s' = true ∧ App.isTyping s' = true
  ∧ App.messageQueue s' = [later].
Proof.
  intros s later s'.
  destruct (message_without_content_blocks_display s 200
              (App.mkMessage "custom-7" None 0 None) 0
              [App.add later; App.timeout_fires]
              eq_refl eq_refl eq_refl)
    as (_ & _ & Hr & _ & Hv & Hty & Hq).
  split; [exact Hr|]. split; [exact Hv|]. split; [exact Hty|exact Hq].
Defined.

(** ** Commands *)

Lemma substring_all (x : string) : String.substring 0 (String.length x) x = x.
Proof. induction x as [|a x IH]; [done|]. simpl. by rewrite IH. Qed.

Lemma find_by_id (pm : list App.Message) m :
  NoDup (App.id <$> pm) → m ∈ pm →
  List.find (λ m', bool_decide (App.id m' = App.id m)) pm = Some m.
Proof.
  induction pm as [|m0 pm IH]; intros Hnd Hin; [by apply elem_of_nil in Hin|].
  rewrite fmap_cons in Hnd. apply NoDup_cons in Hnd as [Hfresh Hnd].
  simpl. case_bool_decide as Hid.
  - apply elem_of_cons in Hin as [->|Hin]; [done|].
    exfalso. apply Hfresh. rewrite Hid. apply list_elem_of_fmap. by exists m.
  - apply elem_of_cons in Hin as [->|Hin]; [done|]. by apply IH.
Qed.

Lemma shortcut_is_send_predefined pm now i payload s :
  App.on_command pm now ("msg_" +:+ i) payload s
  = App.sendPredefinedMessage pm (Some i) s.
Proof.
  unfold App.on_command.
  destruct (decide ("msg_" +:+ i = "send_predefined")) as [E|_];
    [discriminate E|].
  destruct (decide ("msg_" +:+ i = "send_custom")) as [E|_];
    [discriminate E|].
  destruct (decide ("msg_" +:+ i = "start_sequence")) as [E|_];
    [discriminate E|].
  assert (String.prefix "msg_" ("msg_" +:+ i) = true) as ->
    by (by destruct i).
  change (String.length ("msg_" +:+ i)) with (4 + String.length i).
  replace (4 + String.length i - 4) with (String.length i) by lia.
  change (String.substring 4 (String.length i) ("msg_" +:+ i))
    with (String.substring 0 (String.length i) i).
  by rewrite substring_all.
Qed.

(** Every button announced for a predefined message works: when the ids
    of the predefined messages are distinct, the action "msg_<id>" of a
    message is among the announced actions and enqueues that message, as
    does "send_predefined" with its id as [messageId].  An id that no
    predefined message has, and a payload without [messageId], change
    nothing. *)
Theorem announced_shortcuts_send_their_message pm now payload s m :
  NoDup (App.id <$> pm) → m ∈ pm →
  ("msg_" +:+ App.id m) ∈ (action_id <$> App.announced_actions pm)
  ∧ App.on_command pm now ("msg_" +:+ App.id m) payload s
    = App.addMessageToQueue m s
  ∧ App.on_command pm now "send_predefined"
      (<["messageId" := App.id m]> payload) s
    = App.addMessageToQueue m s
  ∧ (∀ i, i ∉ (App.id <$> pm) →
       App.on_command pm now ("msg_" +:+ i) payload s = s
       ∧ App.on_command pm now "send_predefined"
           (<["messageId" := i]> payload) s = s)
  ∧ App.on_command pm now "send_predefined" (delete "messageId" payload) s = s.
Proof.
  intros Hnd Hin. app_split.
  - unfold App.announced_actions. rewrite fmap_app. apply elem_of_app. right.
    apply list_elem_of_fmap. eexists. split; [|apply list_elem_of_fmap; by exists m].
    done.
  - rewrite shortcut_is_send_predefined. simpl. by rewrite find_by_id.
  - unfold App.on_command. simpl. rewrite lookup_insert_eq. simpl.
    by rewrite find_by_id.
  - intros i Hi.
    assert (Hnone : List.find (λ m', bool_decide (App.id m' = i)) pm = None).
    { clear -Hi. induction pm as [|m0 pm IH]; [done|]. simpl.
      rewrite fmap_cons in Hi. apply not_elem_of_cons in Hi as [Hne Hi].
      rewrite bool_decide_eq_false_2 by done. by apply IH. }
    split.
    + rewrite shortcut_is_send_predefined. simpl. by rewrite Hnone.
    + unfold App.on_command. simpl. rewrite lookup_insert_eq. simpl.
      by rewrite Hnone.
  - unfold App.on_command. simpl. by rewrite lookup_delete_eq.
Qed.

Lemma announced_shortcuts_send_their_message_witness :
  let intro := App.mkMessage "intro" (Some "Bonjour") 0 None in
  let alert := App.mkMessage "alert" (Some "Alerte") 0 (Some 3000) in
  App.on_command [intro; alert] 0 "msg_alert" ∅ App.initial
  = App.addMessageToQueue alert App.initial.
Proof.
  intros intro alert.
  assert (Hnd : NoDup (App.id <$> [intro; alert])).
  { apply (bool_decide_unpack _). by vm_compute. }
  assert (Hin : alert ∈ [intro; alert]).
  { apply list_elem_of_further, list_elem_of_here. }
  destruct (announced_shortcuts_send_their_message
              [intro; alert] 0 ∅ App.initial alert Hnd Hin) as (_ & H & _).
  exact H.
Defined.

(** ** The whole sequence *)






(** ** No sound is left behind *)

Lemma Kinds_after s s' :
  Kinds s →
  (∀ h a', audioElements s' !! h = Some a' → live a' →
     (∃ a, audioElements s !! h = Some a ∧ live a ∧ loop a' = loop a
           ∧ onended a' = onended a ∧ (ended a' = false → ended a = false)
           ∧ (ended a' = false → ttsAudio s = Some h → ttsAudio s' = Some h))
     ∨ (kind_of a'
        ∧ ∀ url, onended a' = Some (TtsEnded url) → ttsAudio s' = Some h)) →
  Kinds s'.
Proof.
  intros [K1 K2] H. constructor.
  - intros h a' Ha' Hl.
    destruct (H h a' Ha' Hl) as [(a & Ha & Hla & Hlo & Hon & _)|[Hk _]];
      [|done].
    specialize (K1 h a Ha Hla). unfold kind_of in *. by rewrite Hlo, Hon.
  - intros h a' url Ha' Hl He Hon.
    destruct (H h a' Ha' Hl) as [(a & Ha & Hla & Hlo & Hon' & He' & Ht)|[_ Ht]];
      [|eauto].
    apply Ht; [done|]. apply (K2 h a url); auto. congruence.
Qed.

Lemma Kinds_frame s s' :
  audioElements s' = audioElements s → ttsAudio s' = ttsAudio s →
  Kinds s → Kinds s'.
Proof.
  intros He Ht [K1 K2]. constructor; rewrite ?He, ?Ht; [exact K1|exact K2].
Qed.

Lemma shrinking_cosmetic f : cosmetic f → shrinking f.
Proof.
  intros Hf a. destruct (Hf a) as (Hs & Hl & He & Ho). unfold live.
  rewrite Hs, Hl, He, Ho. done.
Qed.

Lemma shrinking_src : shrinking (with_src "").
Proof. intros a. unfold live. simpl. done. Qed.

Lemma shrinking_ended : shrinking (with_ended true).
Proof. intros a. unfold live. simpl. done. Qed.

Lemma Kinds_update h f s :
  shrinking f → Kinds s → Kinds (update_element h f s).
Proof.
  intros Hf K. apply (Kinds_after s); [done|].
  intros h0 a' Ha' Hl. left. unfold update_element in Ha'. simpl in Ha'.
  destruct (decide (h0 = h)) as [->|Hne].
  - rewrite lookup_alter_eq in Ha'.
    apply fmap_Some in Ha' as (a & Ha & ->).
    destruct (Hf a) as (H1 & H2 & H3 & H4). exists a. auto 10.
  - rewrite lookup_alter_ne in Ha' by done. exists a'. auto 10.
Qed.

Lemma Kinds_pause_and_release h s : Kinds s → Kinds (pause_and_release h s).
Proof.
  intros K. unfold pause_and_release, pause.
  apply Kinds_update; [apply shrinking_src|].
  apply Kinds_update; [|done]. apply shrinking_cosmetic, cosmetic_paused.
Qed.

Lemma Kinds_stopAllAudio s : Kinds s → Kinds (stopAllAudio s).
Proof.
  intros K. apply (Kinds_after s); [done|].
  intros h a' Ha' Hl. left. rewrite stopAllAudio_elements in Ha'.
  destruct (decide (h ∈ referenced s)) as [Hin|Hout].
  - apply fmap_Some in Ha' as (a & _ & ->). by destruct Hl.
  - exists a'. repeat split; try done. intros _ Ht. destruct Hout.
    apply referenced_handles. auto.
Qed.

Lemma Kinds_insert s s' h a :
  audioElements s' = <[h := a]> (audioElements s) →
  kind_of a →
  (∀ url, onended a = Some (TtsEnded url) → ttsAudio s' = Some h) →
  (∀ h0 a0, h0 ≠ h → audioElements s !! h0 = Some a0 → live a0 →
            ttsAudio s = Some h0 → ttsAudio s' = Some h0) →
  Kinds s → Kinds s'.
Proof.
  intros He Hk Ht Hold K. apply (Kinds_after s); [done|].
  intros h0 a' Ha' Hl. rewrite He in Ha'.
  apply lookup_insert_Some in Ha' as [[<- <-]|[Hne Ha']]; [by right|].
  left. exists a'. repeat split; try done. intros _. by eapply Hold.
Qed.

Lemma Kinds_audio_listener e s : Kinds s → Kinds (audio_listener e s).
Proof.
  intros K. destruct e; simpl; try done.
  - unfold on_play_ambient. destruct (gate_closed s); [done|].
    set (s0 := release_existing_ambient soundId s).
    assert (K0 : Kinds s0).
    { subst s0. unfold release_existing_ambient.
      destruct (ambientAudios s !! soundId); [|done].
      by apply Kinds_pause_and_release. }
    match goal with
    | |- Kinds (start_ambient ?id ?f ?v s0) =>
        destruct (start_ambient_slots id f v s0) as (_ & _ & Ht);
        eapply (Kinds_insert s0 _ _ _ (start_ambient_elements id f v s0));
        try done
    end.
    + by left.
    + intros h0 a0 _ _ _. by rewrite Ht.
  - unfold on_stop_ambient. destruct (ambientAudios s !! soundId); [|done].
    apply (Kinds_frame (pause_and_release n s)); try done.
    by apply Kinds_pause_and_release.
  - unfold on_volume_ambient. destruct (ambientAudios s !! soundId); [|done].
    apply Kinds_update; [|done]. apply shrinking_cosmetic, cosmetic_volume.
  - unfold on_play_preset. destruct (gate_closed s); [done|].
    destruct (resumable presetIdx s).
    + unfold play.
      apply Kinds_update; [apply shrinking_cosmetic, cosmetic_paused|].
      apply Kinds_update; [apply shrinking_cosmetic, cosmetic_volume|done].
    + unfold construct_Audio, play, update_element.
      rewrite routeThroughMaster_frame. simpl.
      eapply (Kinds_insert s); simpl; [by rewrite !alter_insert_eq|..];
        try done.
      right. left. by eexists _, _.
  - unfold on_pause_preset, pause. destruct (presetAudios s !! presetIdx); [|done].
    apply Kinds_update; [|done]. apply shrinking_cosmetic, cosmetic_paused.
  - unfold on_seek_preset. destruct (presetAudios s !! presetIdx); [|done].
    apply Kinds_update; [|done]. apply shrinking_cosmetic, cosmetic_currentTime.
  - unfold on_stop_preset. destruct (presetAudios s !! presetIdx); [|done].
    apply (Kinds_frame (pause_and_release n s)); try done.
    by apply Kinds_pause_and_release.
  - unfold on_play_tts. destruct (gate_closed s); [done|].
    set (s1 := match ttsAudio s with
               | Some old => pause_and_release old s
               | None => s
               end).
    assert (K1 : Kinds s1 ∧ ∀ h0 a0, audioElements s1 !! h0 = Some a0 →
                   live a0 → ttsAudio s1 ≠ Some h0).
    { subst s1. destruct (ttsAudio s) as [old|] eqn:Htts.
      - split; [by apply Kinds_pause_and_release|].
        intros h0 a0 Ha0 Hl. change (ttsAudio (pause_and_release old s))
          with (ttsAudio s). rewrite Htts. intros [= <-].
        rewrite lookup_pause_and_release, decide_True in Ha0
          by apply list_elem_of_here.
        apply fmap_Some in Ha0 as (a & _ & ->). by destruct Hl.
      - split; [done|]. intros. by rewrite Htts. }
    destruct K1 as [K1 Hfree].
    unfold construct_Audio, play, update_element.
    rewrite routeThroughMaster_frame. simpl.
    eapply (Kinds_insert s1); simpl; [by rewrite !alter_insert_eq|..];
      try done.
    + right. right. by eexists.
    + intros h0 a0 _ Ha0 Hl Ht. by destruct (Hfree h0 a0 Ha0 Hl).
  - unfold on_volume_ia.
    set (s1 := foldl _ _ _).
    assert (K1 : Kinds s1).
    { subst s1. apply foldl_preserves.
      - revert K. by apply Kinds_frame.
      - intros s0 h K0. apply Kinds_update; [|done].
        apply shrinking_cosmetic, cosmetic_volume. }
    destruct (ttsAudio s1); [|done].
    apply Kinds_update; [|done]. apply shrinking_cosmetic, cosmetic_volume.
  - unfold on_master_volume. simpl. destruct (masterGain s); simpl;
      revert K; by apply Kinds_frame.
  - by apply Kinds_stopAllAudio.
Qed.

Lemma Kinds_stopProgressReporting s : Kinds s → Kinds (stopProgressReporting s).
Proof.
  unfold stopProgressReporting. destruct (progressInterval s); [|done].
  by apply Kinds_frame.
Qed.

Lemma Kinds_startProgressReporting s : Kinds s → Kinds (startProgressReporting s).
Proof.
  unfold startProgressReporting. destruct (progressInterval s); [done|].
  by apply Kinds_frame.
Qed.

Lemma Kinds_doUnlockAudio s : Kinds s → Kinds (doUnlockAudio s).
Proof.
  intros K. unfold doUnlockAudio.
  destruct (audioUnlocked s || negb (enabled (audioConfig s))); [done|].
  rewrite removeUnlockListeners_frame.
  apply (Kinds_frame (startProgressReporting
           (emit out_register_audio_player
              (set_audioUnlocked true (initAudioContext s))))); try done.
  apply Kinds_startProgressReporting.
  revert K. apply Kinds_frame; unfold initAudioContext;
    by destruct (audioCtx s).
Qed.

Lemma Kinds_run_listener l e s :
  is_audio_event e = false → Kinds s → Kinds (run_listener l e s).
Proof.
  intros He K. destruct l; simpl.
  - by rewrite audio_listener_other.
  - revert K. apply Kinds_frame; unfold on_connect;
      destruct (registeredData s); simpl;
      repeat case_bool_decide; simpl;
      destruct (audioUnlocked s && enabled (audioConfig s)); done.
  - done.
  - destruct e; try done. revert K. by apply Kinds_frame.
  - revert K. by apply Kinds_frame.
Qed.

Lemma playing_shape a :
  playing a = true → paused a = false ∧ live a ∧ ended a = false.
Proof.
  unfold playing. intros [[Hp Hs]%andb_prop He]%andb_prop.
  apply negb_true_iff in Hp, He.
  apply negb_true_iff, bool_decide_eq_false in Hs. done.
Qed.

Lemma Kinds_on_media_ended h s : Kinds s → Kinds (on_media_ended h s).
Proof.
  intros K. unfold on_media_ended.
  destruct (audioElements s !! h) as [a|] eqn:Ha; [|done].
  destruct (playing a && negb (loop a) && truthy_number (duration a)) eqn:Hg;
    [|done].
  apply andb_prop in Hg as [[Hplay _]%andb_prop _].
  apply playing_shape in Hplay as (_ & Hlive & Hend).
  set (s2 := update_element h (with_currentTime (default 0%Q (duration a)))
               (update_element h (with_ended true) s)).
  assert (K2 : Kinds s2).
  { subst s2. apply Kinds_update; [apply shrinking_cosmetic, cosmetic_currentTime|].
    by apply Kinds_update; [apply shrinking_ended|]. }
  destruct (onended a) as [[idx h'|url]|] eqn:Ho; [|clear K2|done].
  - revert K2. by apply Kinds_frame.
  - pose proof (kd_tts _ K h a url Ha Hlive Hend Ho) as Htts.
    apply (Kinds_after s); [done|].
    intros h0 a' Ha' Hl. left.
    change (audioElements (tts_onended url s2)) with (audioElements s2) in Ha'.
    subst s2. unfold update_element in Ha'. simpl in Ha'.
    destruct (decide (h0 = h)) as [->|Hne].
    + rewrite !lookup_alter_eq, Ha in Ha'. simpl in Ha'.
      injection Ha' as <-. exists a. repeat split; try done.
    + rewrite !lookup_alter_ne in Ha' by done. exists a'.
      repeat split; try done. intros _ Ht. congruence.
Qed.

Lemma Kinds_step e s : reachable s → Kinds s → Kinds (step e s).
Proof.
  intros Hr K. pose proof (reachable_Inv s Hr) as I.
  destruct e as [e|c|e]; simpl.
  - destruct (is_audio_event e) eqn:He.
    + rewrite deliver_audio by done. by apply Kinds_audio_listener.
    + unfold deliver. apply foldl_preserves; [done|].
      intros. by apply Kinds_run_listener.
  - destruct c; simpl; try (revert K; by apply Kinds_frame).
    + revert K. apply Kinds_frame; unfold api_onConnect, socket_on;
        by rewrite socket_off_frame.
    + revert K. apply Kinds_frame; unfold api_onDisconnect, socket_on;
        by rewrite socket_off_frame.
    + unfold api_configureAudio.
      set (s1 := set_audioConfig _ s).
      set (s2 := if rearm_condition config s1 then addUnlockListeners s1 else s1).
      assert (K2 : Kinds s2).
      { subst s2. destruct (rearm_condition config s1).
        - rewrite addUnlockListeners_frame. revert K. by apply Kinds_frame.
        - revert K. by apply Kinds_frame. }
      case_bool_decide; [|done].
      by apply Kinds_stopProgressReporting, Kinds_stopAllAudio.
    + unfold api_unlockAudio. destruct (audioUnlocked s); [done|].
      destruct (negb (enabled (audioConfig s))); [done|].
      by apply Kinds_doUnlockAudio.
    + unfold api_disableAudio.
      apply Kinds_stopProgressReporting, Kinds_stopAllAudio.
      revert K. by apply Kinds_frame.
    + unfold api_enableAudio. simpl. destruct (audioUnlocked s).
      * apply Kinds_startProgressReporting. revert K. by apply Kinds_frame.
      * revert K. by apply Kinds_frame.
  - destruct e; simpl.
    + unfold on_gesture. case_bool_decide; [|done].
      apply Kinds_doUnlockAudio. revert K. by apply Kinds_frame.
    + destruct (progressInterval s); [|done].
      rewrite report_progress_frame. revert K. by apply Kinds_frame.
    + destruct (pendingTimeouts s); [done|]. revert K. by apply Kinds_frame.
    + destruct (audioElements s !! h); [|done]. case_bool_decide; [done|].
      apply Kinds_update; [|done]. apply shrinking_cosmetic, cosmetic_duration.
    + destruct (audioElements s !! h) as [a|]; [|done].
      destruct (playing a); [|done].
      apply Kinds_update; [|done]. apply shrinking_cosmetic, cosmetic_currentTime.
    + apply Kinds_update; [|done]. apply shrinking_cosmetic, cosmetic_paused.
    + by apply Kinds_on_media_ended.
Qed.

Lemma reachable_Kinds s : reachable s → Kinds s.
Proof.
  intros Hr. induction Hr as [|e s Hr IH]; [|by apply Kinds_step].
  constructor; intros h a; intros; by vm_compute in H.
Qed.

Lemma playing_is_referenced s h a :
  reachable s → audioElements s !! h = Some a → playing a = true →
  h ∈ referenced s.
Proof.
  intros Hr Ha (_ & Hlive & Hend)%playing_shape.
  pose proof (inv_wf _ (reachable_Inv s Hr)) as W.
  pose proof (reachable_Kinds s Hr) as K.
  apply referenced_handles.
  destruct (kd_kind _ K h a Ha Hlive) as [Hloop|[(idx & h' & Ho)|[url Ho]]].
  - left. by apply (wf_ambient_owner _ W h a).
  - right. left. exists idx.
    by destruct (wf_preset_handler _ W h a idx h' Ha Ho Hlive Hend).
  - right. right. by apply (kd_tts _ K h a url).
Qed.

(** In every reachable state a sound that is running is one the module
    still holds: its element is in an ambient slot, in a preset slot, or is
    the current speech clip.  No handler drops a reference to an element
    that keeps playing, so every running sound can still be paused, stopped
    or turned down by a command. *)
Theorem no_sound_is_left_behind s h a :
  reachable s → audioElements s !! h = Some a → playing a = true →
  (∃ id, ambientAudios s !! id = Some h ∧ loop a = true)
  ∨ (∃ idx, presetAudios s !! idx = Some h
            ∧ onended a = Some (PresetEnded idx h))
  ∨ (ttsAudio s = Some h ∧ ∃ url, onended a = Some (TtsEnded url)).
Proof.
  intros Hr Ha Hplay.
  pose proof (playing_is_referenced s h a Hr Ha Hplay) as Hin.
  pose proof (inv_wf _ (reachable_Inv s Hr)) as W.
  apply referenced_handles in Hin as [[id Hid]|[[idx Hidx]|Ht]].
  - left. exists id. split; [done|].
    destruct (wf_ambient _ W _ _ Hid) as (a' & Ha' & Hloop & _). congruence.
  - right. left. exists idx. split; [done|].
    destruct (wf_preset _ W _ _ Hidx) as (a' & Ha' & _ & _ & _ & Ho).
    congruence.
  - right. right. split; [done|].
    destruct (wf_tts _ W _ Ht) as (a' & url & Ha' & _ & Ho).
    exists url. congruence.
Qed.

Lemma no_sound_is_left_behind_witness :
  let s := run [from_browser (gesture keydown);
                from_socket (audio_play_ambient "rain" "rain.mp3" None);
                from_socket (audio_play_ambient "rain" "storm.mp3" None)] loaded in
  ambientAudios s !! "rain" = Some 1.
Proof.
  intros s.
  destruct (no_sound_is_left_behind s 1
              (mkAudio (BACKOFFICE_URL +:+ "/sounds/storm.mp3") true 0.5%Q
                 false 0%Q None false None)
              ltac:(repeat apply reachable_step; apply reachable_loaded)
              eq_refl eq_refl)
    as [(id & Hid & _)|[(idx & Hidx & _)|(Ht & _)]].
  - reflexivity.
  - reflexivity.
  - reflexivity.
Defined.


